(** * The WebRTC signaling relay of the MeetNgo API (src/main.py)

    The handler [signaling_ws] keeps, in the module-level dict [rooms], the
    set of live WebSocket objects of every room, relays each text frame it
    receives to the other members of the sender's room, and removes the
    connection again in its [finally] block.  The coroutine is embedded as
    a transition system whose steps are the code segments between two
    [await]s, so that every interleaving of the handlers is covered.
    [generate_meeting_code] is embedded as a function of the random draws
    it consumes, with the rounding of the binary64 product it takes. *)

From stdpp Require Import gmap strings list fin_maps.
From Stdlib Require Import ZArith Ascii.

Open Scope string_scope.
Open Scope list_scope.

(** ** Data *)

(** A WebSocket object.  The code only compares connections by identity
    ([ws is not websocket]) and hashes them by identity (membership in a
    [set]), so a connection is modelled by the identity of its object. *)
Abbreviation conn := nat.

(** The module-level [rooms = {}]: room code to the set of connections. *)
Abbreviation registry := (gmap string (gset conn)).

Module Registry.

(** Truth value of [rooms.get(code)]: [None] and the empty set are falsy. *)
Definition truthy (o : option (gset conn)) : bool :=
  match o with
  | Some s => bool_decide (s ≠ ∅)
  | None => false
  end.

(** Lines 156-158:
<<
    if code not in rooms:
        rooms[code] = set()
    rooms[code].add(websocket)
>>
    [alter] is the in-place [add] on the set bound to [code]; the binding
    exists after line 157 (see [join_bound]), so no [KeyError] arises. *)
Definition join (code : string) (websocket : conn) (rooms : registry) : registry :=
  let rooms1 :=
    match rooms !! code with
    | None => <[code := ∅]> rooms
    | Some _ => rooms
    end in
  alter (λ s, s ∪ {[websocket]}) code rooms1.

(** Lines 172-174:
<<
    rooms.get(code, set()).discard(websocket)
    if not rooms.get(code):
        rooms.pop(code, None)
>>
    When [code] is unbound the [discard] hits a temporary set and [rooms]
    is untouched, which is what [alter] does on an absent key;
    [pop(code, None)] on an unbound key does nothing, as [delete]. *)
Definition leave (code : string) (websocket : conn) (rooms : registry) : registry :=
  let rooms1 := alter (λ s, s ∖ {[websocket]}) code rooms in
  if truthy (rooms1 !! code) then rooms1 else delete code rooms1.

(** [rooms.get(code, [])] as a set: the members of a room. *)
Definition members (code : string) (rooms : registry) : gset conn :=
  default ∅ (rooms !! code).

(** Line 163, [list(rooms.get(code, []))]: the snapshot the relay iterates. *)
Definition snapshot (code : string) (rooms : registry) : list conn :=
  elements (members code rooms).

(** The "room exists" query, [code in rooms]. *)
Definition room_exists (code : string) (rooms : registry) : bool :=
  bool_decide (is_Some (rooms !! code)).

(** No room is bound to an empty set. *)
Definition no_empty_room (rooms : registry) : Prop :=
  map_Forall (λ _ s, s ≠ ∅) rooms.

End Registry.

Import Registry.

(** ** Meeting codes *)

Module MeetingCode.

(** [string.ascii_uppercase + string.digits] *)
Definition alphabet : list ascii :=
  String.list_ascii_of_string "ABCDEFGHIJKLMNOPQRSTUVWXYZ0123456789".

(** [random()] returns [m / 2^53] for a 53-bit integer [m], a value
    binary64 holds exactly; the source of randomness is the stream [rnd] of
    the successive raw draws, reduced to 53 bits. *)
Definition random_mantissa (rnd : nat → N) (i : nat) : N :=
  (rnd i mod 2 ^ 53)%N.

(** What binary64 keeps of a natural number [q]: its 53 leading bits,
    rounded to nearest, ties to even.  The bits below them are the [e]
    last ones. *)
Definition round_binary64 (q : N) : N :=
  let e := (N.log2 q + 1 - 53)%N in
  let base := (q / 2 ^ e)%N in
  let lo := (q mod 2 ^ e)%N in
  let up := (2 ^ e <? 2 * lo)%N || ((2 * lo =? 2 ^ e)%N && N.odd base) in
  ((if up then base + 1 else base) * 2 ^ e)%N.

(** [floor(random() * n)] for [random() = m / 2^53] and the float
    [n = len(population) + 0.0]: the two factors are exact, their product
    [m * n * 2^-53] is rounded by the multiplication, and [floor] is
    taken of the rounded product. *)
Definition floor_random_times (m n : N) : N :=
  (round_binary64 (m * n) / 2 ^ 53)%N.

(** [population[floor(random() * n)]], the body of the comprehension in
    [random.choices] when no weights are given; [None] is the
    [IndexError] of an index past the end. *)
Definition choice (population : list ascii) (m : N) : option ascii :=
  population !! N.to_nat (floor_random_times m (N.of_nat (List.length population))).

(** [choices(population, k=k)]: [k] independent draws with replacement. *)
Definition choices (population : list ascii) (k : nat) (rnd : nat → N)
    : option (list ascii) :=
  mapM (λ i, choice population (random_mantissa rnd i)) (seq 0 k).

(** Line 127: ["".join(choices(string.ascii_uppercase + string.digits, k=8))] *)
Definition generate_meeting_code (rnd : nat → N) : option string :=
  String.string_of_list_ascii <$> choices alphabet 8 rnd.

Definition is_upper (c : ascii) : bool :=
  Nat.leb 65 (nat_of_ascii c) && Nat.leb (nat_of_ascii c) 90.

Definition is_digit (c : ascii) : bool :=
  Nat.leb 48 (nat_of_ascii c) && Nat.leb (nat_of_ascii c) 57.

End MeetingCode.

(** ** The handler as a transition system *)

(** Outcome of [await websocket.receive_text()] (line 161): a text frame,
    [WebSocketDisconnect], or any other exception. *)
Inductive recv_result :=
| RText (data : string)
| RDisconnect
| RError.

(** Outcome of [await ws.send_text(data)] (line 166): normal return, an
    exception that is an instance of [Exception] (caught on line 167), or
    one that is not (cancellation of the sending task), which only the
    [finally] block sees. *)
Inductive send_result :=
| SOk
| SException
| SCancelled.

(** Where a handler is suspended, or how it ended. *)
Inductive pc :=
| Receiving
| Sending (data : string) (ws : conn) (rest : list conn)
| Returned
| Raised.

(** One invocation of [signaling_ws(websocket, code)]. *)
Record task := Task { t_code : string; t_pc : pc }.

(** What the server did, oldest first. *)
Inductive event :=
| EJoin (code : string) (websocket : conn)
| ELeave (code : string) (websocket : conn)
| ERecv (websocket : conn) (data : string)
| ESend (websocket : conn) (ws : conn) (data : string) (r : send_result).

#[global] Instance send_result_eq_dec : EqDecision send_result.
Proof. solve_decision. Defined.

#[global] Instance event_eq_dec : EqDecision event.
Proof. solve_decision. Defined.

Record state := State {
  rooms : registry;
  tasks : gmap conn task;
  log : list event
}.

Definition init : state :=
  {| rooms := ∅; tasks := ∅; log := [] |}.

(** The scheduler resumes one suspended handler at a time. *)
Inductive label :=
| Accept (code : string) (websocket : conn)
| Receive (websocket : conn) (r : recv_result)
| SendDone (websocket : conn) (r : send_result).

Definition finished (p : pc) : bool :=
  match p with
  | Returned | Raised => true
  | _ => false
  end.

Definition is_text (r : recv_result) : bool :=
  match r with
  | RText _ => true
  | _ => false
  end.

(** Lines 163-166, the [for] loop from its iterator [it] up to the next
    [await]: members identical to the sender are skipped (line 164); when
    the iterator is exhausted the [while] loop is back at line 161. *)
Fixpoint next_send (websocket : conn) (data : string) (it : list conn) : pc :=
  match it with
  | [] => Receiving
  | ws :: rest =>
      if decide (ws = websocket) then next_send websocket data rest
      else Sending data ws rest
  end.

Definition set_pc (websocket : conn) (code : string) (p : pc) (st : state) : state :=
  {| rooms := rooms st;
     tasks := <[websocket := Task code p]> (tasks st);
     log := log st |}.

Definition emit (e : event) (st : state) : state :=
  {| rooms := rooms st; tasks := tasks st; log := log st ++ [e] |}.

(** Lines 171-174, the [finally] block, after which the handler is over:
    [outcome] is [Returned] when the exception was [WebSocketDisconnect]
    (lines 169-170) and [Raised] when it propagates. *)
Definition finish (websocket : conn) (code : string) (outcome : pc) (st : state) : state :=
  {| rooms := leave code websocket (rooms st);
     tasks := <[websocket := Task code outcome]> (tasks st);
     log := log st ++ [ELeave code websocket] |}.

(** One step: the code between two suspension points of one handler. *)
Definition exec (l : label) (st : state) : option state :=
  match l with
  | Accept code websocket =>
      (* line 155 returned for a new WebSocket object; lines 156-161 *)
      match tasks st !! websocket with
      | Some _ => None
      | None =>
          Some {| rooms := join code websocket (rooms st);
                  tasks := <[websocket := Task code Receiving]> (tasks st);
                  log := log st ++ [EJoin code websocket] |}
      end
  | Receive websocket r =>
      (* line 161 resumes: with a frame, lines 163-166 up to the first
         send; with an exception, lines 169-174 *)
      match tasks st !! websocket with
      | Some (Task code Receiving) =>
          match r with
          | RText data =>
              Some (set_pc websocket code
                      (next_send websocket data (snapshot code (rooms st)))
                      (emit (ERecv websocket data) st))
          | RDisconnect => Some (finish websocket code Returned st)
          | RError => Some (finish websocket code Raised st)
          end
      | _ => None
      end
  | SendDone websocket r =>
      (* line 166 resumes: lines 167-168 swallow an [Exception] and the
         loop goes on to the next send; anything else runs lines 171-174 *)
      match tasks st !! websocket with
      | Some (Task code (Sending data ws rest)) =>
          let st1 := emit (ESend websocket ws data r) st in
          match r with
          | SOk | SException =>
              Some (set_pc websocket code (next_send websocket data rest) st1)
          | SCancelled => Some (finish websocket code Raised st1)
          end
      | _ => None
      end
  end.

(** A schedule is run from left to right; it is refused as soon as it
    resumes a handler that is not suspended there. *)
Fixpoint run (sch : list label) (st : state) : option state :=
  match sch with
  | [] => Some st
  | l :: sch' =>
      match exec l st with
      | Some st' => run sch' st'
      | None => None
      end
  end.

(** The same steps as a relation, one constructor per path through the
    handler between two suspension points. *)
Inductive step (st : state) : label → state → Prop :=
| step_accept code websocket :
    tasks st !! websocket = None →
    step st (Accept code websocket)
      {| rooms := join code websocket (rooms st);
         tasks := <[websocket := Task code Receiving]> (tasks st);
         log := log st ++ [EJoin code websocket] |}
| step_text websocket code data :
    tasks st !! websocket = Some (Task code Receiving) →
    step st (Receive websocket (RText data))
      {| rooms := rooms st;
         tasks := <[websocket :=
                      Task code (next_send websocket data
                                   (snapshot code (rooms st)))]> (tasks st);
         log := log st ++ [ERecv websocket data] |}
| step_close websocket code r :
    tasks st !! websocket = Some (Task code Receiving) →
    is_text r = false →
    step st (Receive websocket r)
      {| rooms := leave code websocket (rooms st);
         tasks := <[websocket :=
                      Task code (match r with
                                 | RDisconnect => Returned
                                 | _ => Raised
                                 end)]> (tasks st);
         log := log st ++ [ELeave code websocket] |}
| step_sent websocket code data ws rest r :
    tasks st !! websocket = Some (Task code (Sending data ws rest)) →
    r ≠ SCancelled →
    step st (SendDone websocket r)
      {| rooms := rooms st;
         tasks := <[websocket := Task code (next_send websocket data rest)]>
                    (tasks st);
         log := log st ++ [ESend websocket ws data r] |}
| step_cancelled websocket code data ws rest :
    tasks st !! websocket = Some (Task code (Sending data ws rest)) →
    step st (SendDone websocket SCancelled)
      {| rooms := leave code websocket (rooms st);
         tasks := <[websocket := Task code Raised]> (tasks st);
         log := log st ++ [ESend websocket ws data SCancelled;
                           ELeave code websocket] |}.

(** ** Views of the log *)

(** The [send_text] calls made by the handler of [a] on [w]: payload and
    outcome, oldest first. *)
Fixpoint attempts (a w : conn) (evs : list event) : list (string * send_result) :=
  match evs with
  | [] => []
  | ESend a' w' data r :: evs' =>
      if decide (a' = a ∧ w' = w) then (data, r) :: attempts a w evs'
      else attempts a w evs'
  | _ :: evs' => attempts a w evs'
  end.

(** The payloads of the calls that returned normally. *)
Fixpoint returned (qs : list (string * send_result)) : list string :=
  match qs with
  | [] => []
  | (data, SOk) :: qs' => data :: returned qs'
  | _ :: qs' => returned qs'
  end.

(** The frames [w] was actually handed by [a]. *)
Definition delivered (a w : conn) (evs : list event) : list string :=
  returned (attempts a w evs).

(** The text frames the handler of [a] received, oldest first. *)
Fixpoint frames (a : conn) (evs : list event) : list string :=
  match evs with
  | [] => []
  | ERecv a' data :: evs' =>
      if decide (a' = a) then data :: frames a evs' else frames a evs'
  | _ :: evs' => frames a evs'
  end.

Fixpoint joins (code : string) (evs : list event) : nat :=
  match evs with
  | [] => 0
  | EJoin code' _ :: evs' =>
      if decide (code' = code) then S (joins code evs') else joins code evs'
  | _ :: evs' => joins code evs'
  end.

Fixpoint leaves (code : string) (evs : list event) : nat :=
  match evs with
  | [] => 0
  | ELeave code' _ :: evs' =>
      if decide (code' = code) then S (leaves code evs') else leaves code evs'
  | _ :: evs' => leaves code evs'
  end.


(** ** Auxiliary notions for the relay loop *)

(** The iterator of a suspended relay loop never repeats a connection and
    is not suspended on a send to the sender itself. *)
Definition wf_pc (a : conn) (p : pc) : Prop :=
  match p with
  | Sending _ x rest => x ≠ a ∧ NoDup (x :: rest)
  | _ => True
  end.



(** The connections one broadcast of [a] in room [code] sends to: the
    snapshot of line 163 without the sender (line 164). *)
Definition recipients (a : conn) (code : string) (rooms : registry) : list conn :=
  filter (λ ws, ws ≠ a) (snapshot code rooms).

(** The sends of one broadcast with their outcomes. *)
Definition relay_events (a : conn) (data : string)
    (ws : list conn) (rs : list send_result) : list event :=
  zip_with (λ w r, ESend a w data r) ws rs.

(** ** Invariants of the reachable states *)

Record inv (st : state) : Prop := Inv {
  (* the members of a room are the connections whose handler was opened
     on that room and is still running *)
  inv_members : ∀ code ws,
    ws ∈ members code (rooms st) ↔
    ∃ p, tasks st !! ws = Some (Task code p) ∧ finished p = false;
  inv_wf : ∀ a code p, tasks st !! a = Some (Task code p) → wf_pc a p;
  (* what is left of a snapshot are connections opened on the same room *)
  inv_iter : ∀ a code data x rest w,
    tasks st !! a = Some (Task code (Sending data x rest)) →
    w ∈ x :: rest → ∃ p, tasks st !! w = Some (Task code p);
  inv_joined : ∀ code ws,
    EJoin code ws ∈ log st ↔ ∃ p, tasks st !! ws = Some (Task code p);
  inv_left : ∀ code ws,
    ELeave code ws ∈ log st →
    ∃ p, tasks st !! ws = Some (Task code p) ∧ finished p = true;
  inv_sent : ∀ a w data r,
    ESend a w data r ∈ log st →
    ∃ code pa pw,
      tasks st !! a = Some (Task code pa) ∧ tasks st !! w = Some (Task code pw)
}.

(** Every room has as many members as joins minus leaves were logged. *)
Definition counted (st : state) : Prop :=
  ∀ code,
    size (members code (rooms st)) + leaves code (log st) = joins code (log st).

(** Every leave in a log comes after a join of the same connection to the
    same room, and is the first leave of that connection. *)
Definition leaves_matched (evs : list event) : Prop :=
  ∀ l1 l2 code ws,
    evs = l1 ++ ELeave code ws :: l2 →
    EJoin code ws ∈ l1 ∧ ELeave code ws ∉ l1.

(** Every join in a log is the first join of its connection. *)
Definition joins_fresh (evs : list event) : Prop :=
  ∀ l1 l2 code ws,
    evs = l1 ++ EJoin code ws :: l2 → ∀ c, EJoin c ws ∉ l1.

(** The payloads [a] has sent to [w], oldest first, whatever the outcome. *)
Definition payloads (a w : conn) (evs : list event) : list string :=
  map fst (attempts a w evs).

(** What [a] has sent to [w] follows the frames [a] received: while [a]
    relays its latest frame [data], the recipients still in the iterator
    have been sent earlier frames only. *)
Definition ordered (st : state) : Prop :=
  ∀ a w,
    match tasks st !! a with
    | Some (Task _ (Sending data x rest)) =>
        ∃ fr, frames a (log st) = fr ++ [data] ∧
              payloads a w (log st) `sublist_of`
                (if decide (w ∈ x :: rest) then fr else fr ++ [data])
    | _ => payloads a w (log st) `sublist_of` frames a (log st)
    end.

(** ** Auxiliary notions for the meeting codes *)

(** The position of a character in a population, and a raw draw that
    makes [choice] pick that position out of 36: the least [m] with
    [m * 36 >= position * 2^53]. *)
Fixpoint position (c : ascii) (population : list ascii) : nat :=
  match population with
  | [] => 0
  | c' :: population' =>
      if Ascii.eqb c' c then 0 else S (position c population')
  end.

Definition draw_for (c : ascii) : N :=
  ((N.of_nat (position c MeetingCode.alphabet) * 2 ^ 53 + 35) / 36)%N.

(** ** The HTTP side of src/main.py *)

Module Http.

(** The Python values that travel in token payloads and in filters. *)
Inductive pyval :=
| PNone
| PBool (b : bool)
| PInt (n : Z)
| PFloat (bits : Z)          (* the 64 bits of the double *)
| PStr (s : string)
| PDatetime (us : Z)         (* microseconds since 0001-01-01 00:00:00 *)
| PList (l : list pyval)
| PDict (d : list (string * pyval)).

(** Truth value of a value in [if v:] and [if not v:]. *)
Definition truth (v : pyval) : bool :=
  match v with
  | PNone => false
  | PBool b => b
  | PInt n => negb (Z.eqb n 0)
  | PFloat bits => negb (Z.eqb (bits mod 2 ^ 63) 0)   (* 0.0 and -0.0 *)
  | PStr s => negb (String.eqb s String.EmptyString)
  | PDatetime _ => true
  | PList l => match l with [] => false | _ => true end
  | PDict d => match d with [] => false | _ => true end
  end.

(** A dict with string keys: a token payload, a filter, a document. *)
Abbreviation pydict := (gmap string pyval).

(** [d.get(k)]: [None] when the key is missing. *)
Definition py_get (d : pydict) (k : string) : pyval :=
  default PNone (d !! k).

(** [HTTPException(status_code, detail, headers)]. *)
Record http_exception := HTTPException {
  status_code : nat;
  detail : string;
  headers : list (string * string)
}.

(** What the code imports and does not define: [jwt.encode] of
    python-jose ([None] stands for the exception it raises on claims it
    cannot encode), [jwt.decode] ([None] stands for a raised [JWTError]),
    [get_documents] of the module [database] ([None] stands for an
    exception of the database layer), and the value of the environment
    variable behind [SECRET_KEY]. *)
Record collaborators := Collaborators {
  jwt_encode : pydict → string → string → option string;
  jwt_decode : string → string → list string → option pydict;
  get_documents : string → pydict → option (list pydict);
  SECRET_KEY : string
}.

(** How a call ends: with its value, with an [HTTPException] raised by
    the code itself, or with an exception of a collaborator passing
    through. *)
Inductive result (A : Type) :=
| Ok (a : A)
| Http (e : http_exception)
| Propagated.
Arguments Ok {A} a.
Arguments Http {A} e.
Arguments Propagated {A}.

(** Lines 17-18. *)
Definition ALGORITHM : string := "HS256".







(** Lines 68-72. *)
Definition credentials_exception : http_exception :=
  {| status_code := 401;
     detail := "Could not validate credentials";
     headers := [("WWW-Authenticate", "Bearer")] |}.

(** Lines 67-89. *)
Definition get_current_user (E : collaborators) (token : string)
    : result pydict :=
  match jwt_decode E token (SECRET_KEY E) [ALGORITHM] with
  | None => Http credentials_exception                     (* lines 78-79 *)
  | Some payload =>
      match py_get payload "sub" with
      | PNone => Http credentials_exception                (* lines 76-77 *)
      | _ =>
          let email := py_get payload "email" in
          if truth email then
            match get_documents E "authuser" {[ "email" := email ]} with
            | None => Propagated
            | Some (u :: _) =>                             (* lines 85-86 *)
                (* line 87: an empty dict is falsy *)
                if bool_decide (u = ∅) then Http credentials_exception
                else Ok u
            | Some [] => Http credentials_exception
            end
          else Http credentials_exception
      end
  end.

(** Lines 136-146, for participants of a type [A] whose equality is the
    one the [set] uses (strings, by the schema [Meeting]).  [res] is what
    [get_documents("meeting", {"code": payload.code})] returned and
    [email] is [current_user.get("email")]. *)
Record meeting (A : Type) := Meeting {
  m_id : option string;                (* [meeting["_id"]], when present *)
  m_participants : option (list A)     (* [meeting["participants"]], when present *)
}.
Arguments Meeting {A} _ _.
Arguments m_id {A} _.
Arguments m_participants {A} _.

(** The call [db["meeting"].update_one({"_id": id}, {"$set": {...}})]. *)
Record update_one (A : Type) := UpdateOne {
  u_id : string;
  u_participants : list A;
  u_updated_at : Z
}.
Arguments UpdateOne {A} _ _ _.
Arguments u_id {A} _.
Arguments u_participants {A} _.
Arguments u_updated_at {A} _.

Inductive join_outcome (A : Type) :=
| JoinNotFound                         (* HTTPException(404, "Meeting not found") *)
| JoinKeyError                         (* [meeting["_id"]] on a document without it *)
| Joined (u : update_one A).           (* the update issued; then {"joined": True} *)
Arguments JoinNotFound {A}.
Arguments JoinKeyError {A}.
Arguments Joined {A} u.

Definition join_meeting `{Countable A} (res : list (meeting A)) (email : A)
    (utcnow : Z) : join_outcome A :=
  match res with
  | [] => JoinNotFound                                     (* lines 139-140 *)
  | meeting :: _ =>
      let participants : gset A :=
        list_to_set (default [] (m_participants meeting)) in  (* line 142 *)
      let participants := participants ∪ {[email]} in      (* line 143 *)
      match m_id meeting with
      | None => JoinKeyError
      | Some id =>
          Joined {| u_id := id;
                    u_participants := elements participants;
                    u_updated_at := utcnow |}              (* line 145 *)
      end
  end.

(** Lines 177-206, the diagnostic endpoint.  The literal texts of the
    response are constructors; a text that varies is a list of code
    points. *)
Abbreviation text := (list N).

Inductive attempt (A : Type) :=
| Returns (a : A)
| Raises (message : text).             (* [str(e)] of the exception *)
Arguments Returns {A} a.
Arguments Raises {A} message.

(** The object [db] of the module [database]: its attribute [name] and
    its method [list_collection_names()]. *)
Record database := Database {
  db_name : attempt string;
  list_collection_names : attempt (list string)
}.

Inductive database_status :=
| NotAvailable                 (* "❌ Not Available" *)
| Available                    (* "✅ Available" *)
| ConnectedWorking             (* "✅ Connected & Working" *)
| ConnectedButError (e : text) (* f"⚠️  Connected but Error: {str(e)[:50]}" *)
| NotInitialized               (* "⚠️  Available but not initialized" *)
| ErrorStatus (e : text).      (* f"❌ Error: {str(e)[:50]}" *)

Inductive setting :=
| Unset                        (* None *)
| Configured                   (* "✅ Configured" *)
| Named (name : string)        (* db.name *)
| IsSet                        (* "✅ Set" *)
| NotSet.                      (* "❌ Not Set" *)

Record response := Response {
  backend_running : bool;        (* "backend": "✅ Running" *)
  database_field : database_status;
  database_url : setting;
  database_name : setting;
  connected : bool;              (* "Connected" or "Not Connected" *)
  collections : list string
}.

Definition set_database (v : database_status) (r : response) : response :=
  {| backend_running := backend_running r; database_field := v;
     database_url := database_url r; database_name := database_name r;
     connected := connected r; collections := collections r |}.

Definition set_database_url (v : setting) (r : response) : response :=
  {| backend_running := backend_running r; database_field := database_field r;
     database_url := v; database_name := database_name r;
     connected := connected r; collections := collections r |}.

Definition set_database_name (v : setting) (r : response) : response :=
  {| backend_running := backend_running r; database_field := database_field r;
     database_url := database_url r; database_name := v;
     connected := connected r; collections := collections r |}.

Definition set_connected (v : bool) (r : response) : response :=
  {| backend_running := backend_running r; database_field := database_field r;
     database_url := database_url r; database_name := database_name r;
     connected := v; collections := collections r |}.

Definition set_collections (v : list string) (r : response) : response :=
  {| backend_running := backend_running r; database_field := database_field r;
     database_url := database_url r; database_name := database_name r;
     connected := connected r; collections := v |}.

(** ["✅ Set" if os.getenv(k) else "❌ Not Set"]: an unset variable and an
    empty one are both falsy. *)
Definition env_setting (v : option string) : setting :=
  match v with
  | Some s => if String.eqb s String.EmptyString then NotSet else IsSet
  | None => NotSet
  end.

Definition test_database (db : option database)
    (DATABASE_URL DATABASE_NAME : option string) : response :=
  (* lines 179-186 *)
  let response :=
    {| backend_running := true; database_field := NotAvailable;
       database_url := Unset; database_name := Unset;
       connected := false; collections := [] |} in
  (* lines 187-202 *)
  let response :=
    match db with
    | Some d =>
        let response := set_database Available response in       (* 189 *)
        let response := set_database_url Configured response in  (* 190 *)
        match db_name d with
        | Raises e => set_database (ErrorStatus (take 50 e)) response  (* 202 *)
        | Returns name =>
            let response := set_database_name (Named name) response in  (* 191 *)
            let response := set_connected true response in             (* 192 *)
            match list_collection_names d with
            | Returns names =>
                let response := set_collections (take 10 names) response in (* 195 *)
                set_database ConnectedWorking response                      (* 196 *)
            | Raises e =>
                set_database (ConnectedButError (take 50 e)) response       (* 198 *)
            end
        end
    | None => set_database NotInitialized response                (* 200 *)
    end in
  (* lines 204-205 *)
  let response := set_database_url (env_setting DATABASE_URL) response in
  set_database_name (env_setting DATABASE_NAME) response.

End Http.

(** ** Registry lemmas *)

Lemma join_bound code (rooms : registry) :
  is_Some (match rooms !! code with
           | None => <[code := ∅]> rooms
           | Some _ => rooms
           end !! code).
Proof.
  destruct (rooms !! code) eqn:E; [by rewrite E|].
  rewrite lookup_insert_eq. eauto.
Qed.

Lemma join_lookup code websocket (rooms : registry) :
  join code websocket rooms !! code = Some (members code rooms ∪ {[websocket]}).
Proof.
  unfold join, members.
  destruct (rooms !! code) eqn:E.
  - rewrite lookup_alter_eq, E. done.
  - rewrite lookup_alter_eq, lookup_insert_eq. done.
Qed.

Lemma join_lookup_ne code code' websocket (rooms : registry) :
  code ≠ code' → join code websocket rooms !! code' = rooms !! code'.
Proof.
  intros Hne. unfold join.
  rewrite lookup_alter_ne by done.
  destruct (rooms !! code); [done|]. by rewrite lookup_insert_ne.
Qed.

Lemma members_join code code' websocket (rooms : registry) :
  members code' (join code websocket rooms) =
  if decide (code = code') then members code rooms ∪ {[websocket]}
  else members code' rooms.
Proof.
  unfold members at 1. case_decide as Hc.
  - subst. by rewrite join_lookup.
  - by rewrite join_lookup_ne.
Qed.

Lemma truthy_spec (o : option (gset conn)) :
  truthy o = true ↔ ∃ s, o = Some s ∧ s ≠ ∅.
Proof.
  destruct o as [s|]; simpl.
  - rewrite bool_decide_eq_true. naive_solver.
  - naive_solver.
Qed.

Lemma leave_lookup code websocket (rooms : registry) :
  leave code websocket rooms !! code =
  if decide (members code rooms ∖ {[websocket]} = ∅) then None
  else Some (members code rooms ∖ {[websocket]}).
Proof.
  unfold leave, members.
  destruct (rooms !! code) as [s|] eqn:E; simpl.
  - rewrite lookup_alter_eq, E. simpl.
    case_bool_decide as Hs; case_decide as Hd; try done.
    + by rewrite lookup_alter_eq, E.
    + by rewrite lookup_delete_eq.
  - rewrite lookup_alter_eq, E. simpl.
    rewrite lookup_delete_eq. case_decide as Hd; [done|].
    exfalso. apply Hd. set_solver.
Qed.

Lemma leave_lookup_ne code code' websocket (rooms : registry) :
  code ≠ code' → leave code websocket rooms !! code' = rooms !! code'.
Proof.
  intros Hne. unfold leave.
  destruct (truthy _).
  - by rewrite lookup_alter_ne.
  - rewrite lookup_delete_ne by done. by rewrite lookup_alter_ne.
Qed.

Lemma members_leave code code' websocket (rooms : registry) :
  members code' (leave code websocket rooms) =
  if decide (code = code') then members code rooms ∖ {[websocket]}
  else members code' rooms.
Proof.
  unfold members at 1. case_decide as Hc.
  - subst. rewrite leave_lookup. case_decide as Hd; simpl; by rewrite ?Hd.
  - by rewrite leave_lookup_ne.
Qed.

Lemma join_no_empty_room code websocket (rooms : registry) :
  no_empty_room rooms → no_empty_room (join code websocket rooms).
Proof.
  intros Hne code' s Hs.
  destruct (decide (code = code')) as [<-|Hc].
  - rewrite join_lookup in Hs. set_solver.
  - rewrite join_lookup_ne in Hs by done. by eapply Hne.
Qed.

Lemma leave_no_empty_room code websocket (rooms : registry) :
  no_empty_room rooms → no_empty_room (leave code websocket rooms).
Proof.
  intros Hne code' s Hs.
  destruct (decide (code = code')) as [<-|Hc].
  - rewrite leave_lookup in Hs. case_decide; congruence.
  - rewrite leave_lookup_ne in Hs by done. by eapply Hne.
Qed.

Lemma leave_absent_room code websocket (rooms : registry) :
  rooms !! code = None → leave code websocket rooms = rooms.
Proof.
  intros Hn. apply map_eq. intros code'.
  destruct (decide (code = code')) as [<-|Hc].
  - rewrite leave_lookup. unfold members. rewrite Hn. simpl.
    case_decide as Hd; [done|]. exfalso. apply Hd. set_solver.
  - by apply leave_lookup_ne.
Qed.

Lemma leave_absent_conn code websocket (rooms : registry) s :
  rooms !! code = Some s → s ≠ ∅ → websocket ∉ s →
  leave code websocket rooms = rooms.
Proof.
  intros Hs Hne Hnot. apply map_eq. intros code'.
  destruct (decide (code = code')) as [<-|Hc].
  - rewrite leave_lookup. unfold members. rewrite Hs. simpl.
    assert (s ∖ {[websocket]} = s) as -> by set_solver.
    by case_decide.
  - by apply leave_lookup_ne.
Qed.

Lemma snapshot_NoDup code (rooms : registry) : NoDup (snapshot code rooms).
Proof. apply NoDup_elements. Qed.

Lemma elem_of_snapshot code (rooms : registry) ws :
  ws ∈ snapshot code rooms ↔ ws ∈ members code rooms.
Proof. apply elem_of_elements. Qed.

Lemma count_occ_NoDup_1 (l : list conn) x :
  NoDup l → x ∈ l → count_occ Nat.eq_dec l x = 1.
Proof.
  intros Hnd Hin. apply list_elem_of_In in Hin.
  apply NoDup_ListNoDup in Hnd.
  by apply NoDup_count_occ'.
Qed.

(** ** Registry claims *)

(** C5. Join adds the connection to the set bound to the room code, a
    fresh singleton set when the code was unbound, and leaves every other
    room alone; joining twice with the same connection is the same as
    joining once, and the snapshot of the room then lists the connection
    exactly once. *)
Theorem join_adds_once (code : string) (websocket : conn) (rooms : registry) :
  join code websocket rooms !! code =
    Some (match rooms !! code with
          | Some s => s ∪ {[websocket]}
          | None => {[websocket]}
          end) ∧
  (∀ code', code ≠ code' → join code websocket rooms !! code' = rooms !! code') ∧
  join code websocket (join code websocket rooms) = join code websocket rooms ∧
  count_occ Nat.eq_dec
    (snapshot code (join code websocket (join code websocket rooms)))
    websocket = 1.
Proof.
  split_and!.
  - rewrite join_lookup. unfold members.
    destruct (rooms !! code); simpl; f_equal. set_solver.
  - intros code' Hc. by apply join_lookup_ne.
  - apply map_eq. intros code'.
    destruct (decide (code = code')) as [<-|Hc].
    + rewrite !join_lookup. f_equal.
      rewrite members_join. case_decide; [|done]. set_solver.
    + by rewrite !join_lookup_ne.
  - apply count_occ_NoDup_1; [apply snapshot_NoDup|].
    apply elem_of_snapshot. rewrite !members_join.
    case_decide; [|done]. set_solver.
Qed.

(** C4. When the connection that leaves is the only member left, the
    room code is unbound afterwards, so that the room-exists query
    answers false.  Leaving a room code that is unbound changes nothing.
    Leaving a room the connection is not a member of changes the members
    of no room, and changes nothing at all in a registry in which no room
    is bound to an empty set (the registries the handler produces).
    [leave] is total: no case raises. *)
Theorem leave_last_and_absent (code : string) (websocket : conn) (rooms : registry) :
  (members code rooms = {[websocket]} →
     room_exists code (leave code websocket rooms) = false) ∧
  (rooms !! code = None → leave code websocket rooms = rooms) ∧
  (websocket ∉ members code rooms →
     (∀ c, members c (leave code websocket rooms) = members c rooms) ∧
     (no_empty_room rooms → leave code websocket rooms = rooms)).
Proof.
  split_and!.
  - intros Hm. unfold room_exists. rewrite leave_lookup, Hm.
    rewrite decide_True by set_solver.
    apply bool_decide_eq_false. by intros [? ?].
  - apply leave_absent_room.
  - intros Hnot. split.
    + intros c. rewrite members_leave. case_decide; [subst|done]. set_solver.
    + intros Hne. destruct (rooms !! code) as [s|] eqn:Hs.
      * eapply leave_absent_conn; [done|by eapply Hne|].
        unfold members in Hnot. by rewrite Hs in Hnot.
      * by apply leave_absent_room.
Qed.

Lemma leave_last_and_absent_witness :
  room_exists "R1" (leave "R1" 7 {[ "R1" := {[7]} ]}) = false ∧
  leave "R2" 7 {[ "R1" := {[7]} ]} = ({[ "R1" := {[7]} ]} : registry) ∧
  leave "R1" 8 {[ "R1" := {[7]} ]} = ({[ "R1" := {[7]} ]} : registry).
Proof.
  split_and!.
  - apply (proj1 (leave_last_and_absent "R1" 7 {[ "R1" := {[7]} ]})).
    reflexivity.
  - apply (proj1 (proj2 (leave_last_and_absent "R2" 7 {[ "R1" := {[7]} ]}))).
    reflexivity.
  - apply (proj2 (proj2 (leave_last_and_absent "R1" 8 {[ "R1" := {[7]} ]}))).
    + apply (bool_decide_unpack _). by vm_compute.
    + apply (bool_decide_unpack _). by vm_compute.
Defined.

(** ** Meeting codes *)

Section meeting_code.
Import MeetingCode.

Lemma alphabet_chars :
  forallb (λ c, is_upper c || is_digit c) alphabet = true.
Proof. reflexivity. Qed.

Lemma round_binary64_upper (q : N) :
  (q < 2 ^ 59)%N → (round_binary64 q ≤ q + 32)%N.
Proof.
  intros Hq. unfold round_binary64.
  set (e := (N.log2 q + 1 - 53)%N).
  assert (e ≤ 6)%N as He.
  { destruct (decide (q = 0%N)) as [->|Hq0]; [done|].
    assert (N.log2 q < 59)%N by (apply N.log2_lt_pow2; lia). lia. }
  assert (2 ^ e ≤ 2 ^ 6)%N as Hpow by (by apply N.pow_le_mono_r).
  assert (0 < 2 ^ e)%N as Hpos by (apply N.neq_0_lt_0, N.pow_nonzero; lia).
  pose proof (N.div_mod q (2 ^ e)%N) as Hdm.
  pose proof (N.mod_lt q (2 ^ e)%N) as Hlt.
  change (2 ^ 6)%N with 64%N in Hpow.
  set (P := (2 ^ e)%N) in *. set (b := (q / P)%N) in *.
  set (r := (q mod P)%N) in *.
  assert (q = b * P + r)%N as Hq' by lia.
  destruct ((P <? 2 * r)%N || ((2 * r =? P)%N && N.odd b)) eqn:Hup.
  - assert (P ≤ 2 * r)%N as Hhalf.
    { apply orb_true_iff in Hup as [Hup|Hup].
      - apply N.ltb_lt in Hup. lia.
      - apply andb_true_iff in Hup as [Hup _]. apply N.eqb_eq in Hup. lia. }
    clearbody P b r. lia.
  - clearbody P b r. lia.
Qed.

Lemma floor_random_times_36 (m : N) :
  (m < 2 ^ 53)%N → (floor_random_times m 36 < 36)%N.
Proof.
  intros Hm. unfold floor_random_times.
  apply N.Div0.div_lt_upper_bound.
  assert (m * 36 < 2 ^ 59)%N as Hq.
  { change (2 ^ 59)%N with (64 * 2 ^ 53)%N. lia. }
  pose proof (round_binary64_upper _ Hq). lia.
Qed.

Lemma choice_alphabet (rnd : nat → N) i :
  ∃ c, choice alphabet (random_mantissa rnd i) = Some c ∧ c ∈ alphabet.
Proof.
  unfold choice, random_mantissa.
  assert (rnd i mod 2 ^ 53 < 2 ^ 53)%N as Hm by (by apply N.mod_lt).
  pose proof (floor_random_times_36 _ Hm) as Hi.
  change (N.of_nat (List.length alphabet)) with 36%N.
  destruct (lookup_lt_is_Some_2 alphabet
              (N.to_nat (floor_random_times (rnd i mod 2 ^ 53) 36)))
    as [c Hc].
  { change (List.length alphabet) with 36. lia. }
  exists c. split; [done|]. by eapply list_elem_of_lookup_2.
Qed.

Lemma choices_alphabet k (rnd : nat → N) :
  ∃ l, choices alphabet k rnd = Some l ∧
       List.length l = k ∧ Forall (λ c, c ∈ alphabet) l.
Proof.
  unfold choices.
  assert (∀ idx, ∃ l,
    mapM (λ i, choice alphabet (random_mantissa rnd i)) idx = Some l ∧
    List.length l = List.length idx ∧ Forall (λ c, c ∈ alphabet) l) as Hall.
  { induction idx as [|i idx (l & Hl & Hlen & Hin)].
    - exists []. by split_and!.
    - destruct (choice_alphabet rnd i) as (c & Hc & Hcin).
      exists (c :: l). simpl. rewrite Hc, Hl. simpl.
      split_and!; [done|by rewrite Hlen|by constructor]. }
  destruct (Hall (seq 0 k)) as (l & Hl & Hlen & Hin).
  exists l. split_and!; [done| |done]. by rewrite Hlen, length_seq.
Qed.

Lemma join_chars_length (l : list ascii) :
  String.length (String.string_of_list_ascii l) = List.length l.
Proof. induction l as [|c l IH]; simpl; [done|]. by rewrite IH. Qed.

(** C10. Whatever the random draws, [generate_meeting_code] returns (no
    index is ever past the end of the alphabet, the rounding of the
    product included) a string of exactly 8 characters, each an uppercase
    ASCII letter or a decimal digit. *)
Theorem generate_meeting_code_shape (rnd : nat → N) :
  ∃ code,
    generate_meeting_code rnd = Some code ∧
    String.length code = 8 ∧
    Forall (λ c, is_upper c || is_digit c = true)
      (String.list_ascii_of_string code).
Proof.
  unfold generate_meeting_code.
  destruct (choices_alphabet 8 rnd) as (l & -> & Hlen & Hin).
  eexists. split; [done|]. split.
  - by rewrite join_chars_length.
  - rewrite String.list_ascii_of_string_of_list_ascii.
    eapply Forall_impl; [exact Hin|]. intros c Hc. simpl.
    pose proof alphabet_chars as Hall.
    rewrite forallb_forall in Hall. by apply Hall, list_elem_of_In.
Qed.

End meeting_code.

(** ** The relay loop *)

Ltac exec_inv H :=
  unfold exec in H; repeat case_match; simplify_eq.

Lemma next_send_unfinished a data it : finished (next_send a data it) = false.
Proof. induction it as [|x it IH]; simpl; [done|]. by case_decide. Qed.

Lemma wf_next_send a data it : NoDup it → wf_pc a (next_send a data it).
Proof.
  induction it as [|x it IH]; simpl; [done|].
  intros Hnd. case_decide; simpl; [|done].
  apply IH. by eapply NoDup_cons_1_2.
Qed.


Lemma attempts_app a w evs1 evs2 :
  attempts a w (evs1 ++ evs2) = attempts a w evs1 ++ attempts a w evs2.
Proof.
  induction evs1 as [|e evs1 IH]; simpl; [done|].
  destruct e; try done. case_decide; simpl; by rewrite IH.
Qed.






(** ** One broadcast run without interruption *)

Lemma run_app sch1 sch2 st :
  run (sch1 ++ sch2) st = run sch1 st ≫= run sch2.
Proof.
  revert st. induction sch1 as [|l sch1 IH]; intros st; simpl; [done|].
  destruct (exec l st); simpl; [apply IH|done].
Qed.

Lemma relay_run a code data : ∀ it rs st,
  tasks st !! a = Some (Task code (next_send a data it)) →
  Forall (λ r, r ≠ SCancelled) rs →
  length rs = length (filter (λ ws, ws ≠ a) it) →
  run (map (SendDone a) rs) st =
    Some {| rooms := rooms st;
            tasks := <[a := Task code Receiving]> (tasks st);
            log := log st ++ relay_events a data (filter (λ ws, ws ≠ a) it) rs |}.
Proof.
  induction it as [|x it IH]; intros rs st Ha Hrs Hlen.
  - destruct rs; [|done]. simpl in *. destruct st as [rm tk lg]; simpl in *.
    by rewrite app_nil_r, insert_id.
  - simpl in Ha. rewrite filter_cons in Hlen |- *.
    destruct (decide (x = a)) as [->|Hx].
    + rewrite decide_False in Hlen |- * by naive_solver. by apply IH.
    + rewrite decide_True in Hlen |- * by done.
      destruct rs as [|r rs]; [done|]. simpl in Hlen.
      apply Forall_cons in Hrs as [Hr Hrs].
      cbn [map run exec]. rewrite Ha.
      assert (exec_ok :
        (match r with
         | SCancelled => Some (finish a code Raised (emit (ESend a x data r) st))
         | _ => Some (set_pc a code (next_send a data it) (emit (ESend a x data r) st))
         end) = Some (set_pc a code (next_send a data it) (emit (ESend a x data r) st))).
      { by destruct r. }
      simpl. simpl in exec_ok. rewrite exec_ok.
      rewrite IH; [|by simpl; rewrite lookup_insert_eq|done|lia].
      simpl. by rewrite insert_insert_eq, <- app_assoc.
Qed.

(** C3. Let a handler receive a frame and let its sends complete one
    after the other, each of them either returning or raising an exception
    that [except Exception] catches, in any combination.  Every one of the
    recipients still gets its [send_text] call, in the order of the
    snapshot, and the handler ends suspended at [receive_text] again, with
    the registry untouched: no failure ended the loop or left the
    handler. *)
Theorem send_failure_swallowed (st : state) (a : conn) (code data : string)
    (rs : list send_result) :
  tasks st !! a = Some (Task code Receiving) →
  Forall (λ r, r ≠ SCancelled) rs →
  length rs = length (recipients a code (rooms st)) →
  run (Receive a (RText data) :: map (SendDone a) rs) st =
    Some {| rooms := rooms st;
            tasks := tasks st;
            log := log st ++ ERecv a data ::
                     relay_events a data (recipients a code (rooms st)) rs |}.
Proof.
  intros Ha Hrs Hlen. cbn [run exec]. rewrite Ha.
  unfold recipients in *.
  rewrite (relay_run a code data (snapshot code (rooms st)));
    [|by simpl; rewrite lookup_insert_eq|done..].
  simpl. rewrite insert_insert_eq, insert_id by done.
  by rewrite <- app_assoc.
Qed.

Lemma send_failure_swallowed_witness :
  run [Accept "R1" 0; Accept "R1" 1; Accept "R1" 2;
       Receive 0 (RText "x"); SendDone 0 SException; SendDone 0 SOk] init =
  Some {| rooms := {[ "R1" := {[0; 1; 2]} ]};
          tasks := {[ 0 := Task "R1" Receiving; 1 := Task "R1" Receiving;
                      2 := Task "R1" Receiving ]};
          log := [EJoin "R1" 0; EJoin "R1" 1; EJoin "R1" 2; ERecv 0 "x";
                  ESend 0 2 "x" SException; ESend 0 1 "x" SOk] |}.
Proof.
  pose (st := {| rooms := {[ "R1" := {[0; 1; 2]} ]};
                 tasks := {[ 0 := Task "R1" Receiving; 1 := Task "R1" Receiving;
                             2 := Task "R1" Receiving ]};
                 log := [EJoin "R1" 0; EJoin "R1" 1; EJoin "R1" 2] |}).
  change (run ([Accept "R1" 0; Accept "R1" 1; Accept "R1" 2] ++
               Receive 0 (RText "x") :: map (SendDone 0) [SException; SOk]) init
          = Some {| rooms := rooms st; tasks := tasks st;
                    log := log st ++ ERecv 0 "x" ::
                      relay_events 0 "x" [2; 1] [SException; SOk] |}).
  assert (run [Accept "R1" 0; Accept "R1" 1; Accept "R1" 2] init = Some st)
    as Hst by (by vm_compute).
  rewrite run_app, Hst. simpl mbind. cbn [option_bind].
  assert (recipients 0 "R1" (rooms st) = [2; 1]) as Hrec by (by vm_compute).
  rewrite <- Hrec.
  apply (send_failure_swallowed st 0 "R1" "x" [SException; SOk]).
  - by vm_compute.
  - repeat constructor; done.
  - by vm_compute.
Defined.

(** ** Steps and reachable states *)

Lemma exec_step l st st' : exec l st = Some st' ↔ step st l st'.
Proof.
  split.
  - intros Hex. exec_inv Hex; unfold finish, set_pc, emit; simpl;
      rewrite <- ?app_assoc; simpl; by econstructor.
  - intros Hst. destruct Hst; unfold exec;
      match goal with H : tasks _ !! _ = _ |- _ => rewrite H end; try done.
    + by destruct r.
    + by destruct r.
    + unfold finish, emit. simpl. by rewrite <- app_assoc.
Qed.

Lemma run_invariant (P : state → Prop) :
  (∀ l st st', P st → step st l st' → P st') →
  ∀ sch st st', P st → run sch st = Some st' → P st'.
Proof.
  intros Hstep. induction sch as [|l sch IH]; intros st st' HP Hrun; simpl in Hrun.
  - by simplify_eq.
  - destruct (exec l st) as [st1|] eqn:Hex; [|done].
    eapply IH; [|done]. eapply Hstep; [done|]. by apply exec_step.
Qed.

Lemma next_send_Sending a data it data' x rest :
  next_send a data it = Sending data' x rest →
  data' = data ∧ x ≠ a ∧ ∀ w, w ∈ x :: rest → w ∈ it.
Proof.
  induction it as [|y it IH]; simpl; [done|].
  case_decide as Hy.
  - intros H. destruct (IH H) as (? & ? & Hin). split_and!; [done..|].
    intros w Hw. right. by apply Hin.
  - intros H. by simplify_eq.
Qed.

Lemma inv_init : inv init.
Proof.
  split; simpl.
  - intros code ws. unfold members. rewrite lookup_empty. simpl.
    split; [set_solver|]. intros (p & Hp & _). by rewrite lookup_empty in Hp.
  - intros a code p Hp. by rewrite lookup_empty in Hp.
  - intros a code data x rest w Hp. by rewrite lookup_empty in Hp.
  - intros code ws. split; [by intros ?%elem_of_nil|].
    intros (p & Hp). by rewrite lookup_empty in Hp.
  - by intros code ws ?%elem_of_nil.
  - by intros a w data r ?%elem_of_nil.
Qed.

Lemma step_task_kept st l st' w c p :
  step st l st' →
  tasks st !! w = Some (Task c p) →
  ∃ p', tasks st' !! w = Some (Task c p').
Proof.
  intros Hstep Hw.
  destruct Hstep; simpl;
    (destruct (decide (websocket = w)) as [->|Hne];
     [rewrite lookup_insert_eq; simplify_eq; eauto
     |rewrite lookup_insert_ne by done; eauto]).
Qed.

Lemma step_members st l st' :
  (∀ code ws, ws ∈ members code (rooms st) ↔
     ∃ p, tasks st !! ws = Some (Task code p) ∧ finished p = false) →
  step st l st' →
  ∀ code ws, ws ∈ members code (rooms st') ↔
     ∃ p, tasks st' !! ws = Some (Task code p) ∧ finished p = false.
Proof.
  intros Hmem Hstep c ws.
  destruct Hstep as [code a Ht|a code data Ht|a code r Ht Hr
                    |a code data x rest r Ht Hr|a code data x rest Ht]; simpl.
  all: rewrite ?members_join, ?members_leave, lookup_insert.
  all: repeat case_decide; subst;
    rewrite ?elem_of_union, ?elem_of_difference, ?elem_of_singleton, ?Hmem.
  all: try (clear Hmem; split; [intros (p & Hp & Hf)|intros (p & Hp & Hf)]; simplify_eq; by eauto using next_send_unfinished).
  all: clear Hmem; try (destruct r; try done); naive_solver.
Qed.

Lemma step_wf st l st' :
  (∀ a code p, tasks st !! a = Some (Task code p) → wf_pc a p) →
  step st l st' →
  ∀ a code p, tasks st' !! a = Some (Task code p) → wf_pc a p.
Proof.
  intros Hwf Hstep b c p.
  destruct Hstep as [code a Ht|a code data Ht|a code r Ht Hr
                    |a code data x rest r Ht Hr|a code data x rest Ht]; simpl.
  all: rewrite lookup_insert; case_decide; [|by apply Hwf].
  all: intros; simplify_eq; try done.
  - apply wf_next_send, snapshot_NoDup.
  - by destruct r.
  - apply wf_next_send. destruct (Hwf _ _ _ Ht) as [_ Hnd].
    by eapply NoDup_cons_1_2.
Qed.

Lemma step_iter st l st' :
  inv st →
  step st l st' →
  ∀ a code data x rest w,
    tasks st' !! a = Some (Task code (Sending data x rest)) →
    w ∈ x :: rest → ∃ p, tasks st' !! w = Some (Task code p).
Proof.
  intros Hinv Hstep b c d y rst w Hb Hw.
  assert (∃ p, tasks st !! w = Some (Task c p)) as [p Hp];
    [|by eapply step_task_kept].
  destruct Hstep as [code a Ht|a code data Ht|a code r Ht Hr
                    |a code data x rest r Ht Hr|a code data x rest Ht];
    simpl in Hb.
  all: rewrite lookup_insert in Hb; case_decide;
    [|by eapply (inv_iter _ Hinv)]; simplify_eq.
  - match goal with
    | H : next_send _ _ _ = Sending _ _ _ |- _ =>
        apply next_send_Sending in H as (_ & _ & Hin)
    end.
    apply Hin, elem_of_snapshot, (inv_members _ Hinv) in Hw
      as (p & Hp & _). eauto.
  - by destruct r.
  - match goal with
    | H : next_send _ _ _ = Sending _ _ _ |- _ =>
        apply next_send_Sending in H as (_ & _ & Hin)
    end.
    eapply (inv_iter _ Hinv); [done|]. right. by apply Hin.
Qed.

Ltac log_elem :=
  rewrite ?elem_of_app, ?elem_of_cons, ?elem_of_nil.

Lemma step_joined st l st' :
  inv st →
  step st l st' →
  ∀ code ws,
    EJoin code ws ∈ log st' ↔ ∃ p, tasks st' !! ws = Some (Task code p).
Proof.
  intros Hinv Hstep c ws.
  destruct Hstep as [code a Ht|a code data Ht|a code r Ht Hr
                    |a code data x rest r Ht Hr|a code data x rest Ht]; simpl.
  all: log_elem; rewrite (inv_joined _ Hinv), lookup_insert.
  all: case_decide; subst; [|naive_solver].
  all: rewrite ?Ht; clear Hinv; naive_solver.
Qed.

Lemma step_left st l st' :
  inv st →
  step st l st' →
  ∀ code ws,
    ELeave code ws ∈ log st' →
    ∃ p, tasks st' !! ws = Some (Task code p) ∧ finished p = true.
Proof.
  intros Hinv Hstep c ws.
  destruct Hstep as [code a Ht|a code data Ht|a code r Ht Hr
                    |a code data x rest r Ht Hr|a code data x rest Ht]; simpl.
  all: log_elem; rewrite lookup_insert.
  all: intros [Hold|Hnew].
  all: try (apply (inv_left _ Hinv) in Hold as (p & Hp & Hf)).
  all: case_decide; subst; simplify_eq/=; eauto.
  all: try (destruct r; by eauto).
  all: try naive_solver.
  destruct Hnew as [Hnew|[]]. simplify_eq. destruct r; by eauto.
Qed.

Lemma step_sent_log st l st' :
  inv st →
  step st l st' →
  ∀ a w data r,
    ESend a w data r ∈ log st' →
    ∃ code pa pw,
      tasks st' !! a = Some (Task code pa) ∧ tasks st' !! w = Some (Task code pw).
Proof.
  intros Hinv Hstep b w d r0 Hin.
  assert (∃ code pa pw, tasks st !! b = Some (Task code pa) ∧
                        tasks st !! w = Some (Task code pw))
    as (c & pa & pw & Hb & Hw).
  { destruct Hstep as [code a Ht|a code data Ht|a code r Ht Hr
                      |a code data x rest r Ht Hr|a code data x rest Ht];
      simpl in Hin; revert Hin; log_elem.
    all: intros [Hold|Hnew]; [by eapply (inv_sent _ Hinv)|].
    all: try naive_solver.
    - destruct Hnew as [Hnew|[]]. simplify_eq.
      edestruct (inv_iter _ Hinv) as [pw Hpw]; [exact Ht|by left|].
      eauto.
    - destruct Hnew as [Hnew|Hnew]; [|naive_solver]. simplify_eq.
      edestruct (inv_iter _ Hinv) as [pw Hpw]; [exact Ht|by left|].
      eauto. }
  destruct (step_task_kept _ _ _ _ _ _ Hstep Hb) as [pa' Hb'].
  destruct (step_task_kept _ _ _ _ _ _ Hstep Hw) as [pw' Hw'].
  eauto.
Qed.

Lemma inv_step l st st' : inv st → step st l st' → inv st'.
Proof.
  intros Hinv Hstep. split.
  - eapply step_members; [apply Hinv|done].
  - eapply step_wf; [apply Hinv|done].
  - by eapply step_iter.
  - by eapply step_joined.
  - by eapply step_left.
  - by eapply step_sent_log.
Qed.

Lemma inv_run sch st st' : inv st → run sch st = Some st' → inv st'.
Proof. apply run_invariant. intros. by eapply inv_step. Qed.

Lemma inv_reachable sch st : run sch init = Some st → inv st.
Proof. apply inv_run, inv_init. Qed.

Lemma step_no_empty_room st l st' :
  no_empty_room (rooms st) → step st l st' → no_empty_room (rooms st').
Proof.
  intros Hne Hstep. destruct Hstep; simpl;
    auto using join_no_empty_room, leave_no_empty_room.
Qed.

Lemma step_finished_kept st l st' a c p :
  step st l st' →
  tasks st !! a = Some (Task c p) → finished p = true →
  tasks st' !! a = Some (Task c p).
Proof.
  intros Hstep Ha Hf.
  destruct Hstep; simpl;
    (destruct (decide (websocket = a)) as [->|Hne];
     [simplify_eq; done|by rewrite lookup_insert_ne]).
Qed.

Lemma run_finished_kept sch : ∀ st st' a c p,
  run sch st = Some st' →
  tasks st !! a = Some (Task c p) → finished p = true →
  tasks st' !! a = Some (Task c p).
Proof.
  induction sch as [|l sch IH]; intros st st' a c p Hrun Ha Hf; simpl in Hrun.
  - by simplify_eq.
  - destruct (exec l st) as [st1|] eqn:Hex; [|done].
    eapply IH; [done| |done].
    eapply step_finished_kept; [apply exec_step; eassumption|done..].
Qed.

Lemma inv_finished_not_member st a c p :
  inv st → tasks st !! a = Some (Task c p) → finished p = true →
  ∀ code, a ∉ members code (rooms st).
Proof.
  intros Hinv Ha Hf code Hin.
  apply (inv_members _ Hinv) in Hin as (p' & Hp' & Hf').
  simplify_eq. congruence.
Qed.

Lemma inv_running_room_bound st a c p :
  inv st → tasks st !! a = Some (Task c p) → finished p = false →
  is_Some (rooms st !! c).
Proof.
  intros Hinv Ha Hf.
  assert (a ∈ members c (rooms st)) as Hin
    by (apply (inv_members _ Hinv); eauto).
  unfold members in Hin. destruct (rooms st !! c); [eauto|set_solver].
Qed.

(** ** Claims about the handler *)

(** C9. In every state the handlers can reach, no room code is bound to
    an empty set, and a further join or leave, with any arguments, keeps
    it so.  When the room code of a handler is unbound at the moment it
    receives a frame (which [inv_running_room_bound] excludes in reachable
    states: it is the default of [rooms.get(code, [])] that is exercised),
    the snapshot of line 163 is empty and the step ends suspended at
    [receive_text] again without a single send and without raising. *)
Theorem registry_never_binds_empty (sch : list label) (st st0 : state)
    (a : conn) (code data : string) :
  run sch init = Some st →
  tasks st0 !! a = Some (Task code Receiving) →
  rooms st0 !! code = None →
  no_empty_room (rooms st) ∧
  (∀ c ws, no_empty_room (join c ws (rooms st)) ∧
           no_empty_room (leave c ws (rooms st))) ∧
  snapshot code (rooms st0) = [] ∧
  exec (Receive a (RText data)) st0 =
    Some {| rooms := rooms st0; tasks := tasks st0;
            log := log st0 ++ [ERecv a data] |}.
Proof.
  intros Hrun Ha Hcode.
  assert (no_empty_room (rooms st)) as Hne.
  { revert Hrun. apply (run_invariant (λ s, no_empty_room (rooms s))).
    - intros. by eapply step_no_empty_room.
    - apply map_Forall_empty. }
  assert (snapshot code (rooms st0) = []) as Hsnap.
  { unfold snapshot, members. rewrite Hcode. apply elements_empty. }
  split_and!; [done| |done|].
  - intros c ws. split; [by apply join_no_empty_room|by apply leave_no_empty_room].
  - unfold exec. rewrite Ha, Hsnap. simpl. unfold set_pc, emit. simpl.
    by rewrite insert_id.
Qed.

Lemma registry_never_binds_empty_witness :
  no_empty_room (rooms (default init
     (run [Accept "R1" 0; Accept "R1" 1; Receive 0 RDisconnect;
           Receive 1 RError] init))) ∧
  exec (Receive 0 (RText "x"))
    {| rooms := ∅; tasks := {[ 0 := Task "R9" Receiving ]}; log := [] |} =
  Some {| rooms := ∅; tasks := {[ 0 := Task "R9" Receiving ]};
          log := [ERecv 0 "x"] |}.
Proof.
  pose (sch := [Accept "R1" 0; Accept "R1" 1; Receive 0 RDisconnect;
                Receive 1 RError]).
  pose (st0 := {| rooms := ∅; tasks := {[ 0 := Task "R9" Receiving ]};
                  log := [] |}).
  destruct (registry_never_binds_empty sch (default init (run sch init))
              st0 0 "R9" "x") as (Hne & _ & _ & Hex);
    [by vm_compute..|].
  split; [exact Hne|exact Hex].
Defined.

(** C2. In a reachable state, let the [receive_text] of a handler raise,
    [WebSocketDisconnect] or anything else.  The step is defined, it ends
    the handler (returned after [WebSocketDisconnect], raising otherwise),
    and at that point the connection is a member of no room; nothing that
    happens later makes it a member again. *)
Theorem receive_exit_leaves (sch : list label) (st : state) (a : conn)
    (code : string) (r : recv_result) :
  run sch init = Some st →
  tasks st !! a = Some (Task code Receiving) →
  is_text r = false →
  ∃ st',
    exec (Receive a r) st = Some st' ∧
    tasks st' !! a =
      Some (Task code (match r with RDisconnect => Returned | _ => Raised end)) ∧
    (∀ c, a ∉ members c (rooms st')) ∧
    (∀ sch' st'', run sch' st' = Some st'' → ∀ c, a ∉ members c (rooms st'')).
Proof.
  intros Hrun Ha Hr.
  set (p := match r with RDisconnect => Returned | _ => Raised end).
  assert (finished p = true) as Hf by (by destruct r).
  assert (step st (Receive a r)
            {| rooms := leave code a (rooms st);
               tasks := <[a := Task code p]> (tasks st);
               log := log st ++ [ELeave code a] |}) as Hstep
    by (by constructor).
  eexists. split; [by apply exec_step|].
  assert (inv st) as Hinv by (by eapply inv_reachable).
  pose proof (inv_step _ _ _ Hinv Hstep) as Hinv'.
  simpl. rewrite lookup_insert_eq. split_and!; [done| |].
  - apply (inv_finished_not_member _ a code p Hinv'); [|done].
    simpl. by rewrite lookup_insert_eq.
  - intros sch' st'' Hrun'.
    apply (inv_finished_not_member st'' a code p); [by eapply inv_run| |done].
    eapply run_finished_kept; [done| |done]. simpl.
    by rewrite lookup_insert_eq.
Qed.

Lemma receive_exit_leaves_witness :
  ∃ st',
    exec (Receive 1 RError)
      (default init (run [Accept "R1" 0; Accept "R1" 1;
                          Receive 0 (RText "x")] init)) = Some st' ∧
    ∀ c, 1 ∉ members c (rooms st').
Proof.
  pose (sch := [Accept "R1" 0; Accept "R1" 1; Receive 0 (RText "x")]).
  destruct (receive_exit_leaves sch (default init (run sch init)) 1 "R1" RError)
    as (st' & Hex & _ & Hnot & _); [by vm_compute..|].
  exists st'. split; [exact Hex|exact Hnot].
Defined.

Lemma inv_join_unique st code code' ws :
  inv st → EJoin code ws ∈ log st → EJoin code' ws ∈ log st → code = code'.
Proof.
  intros Hinv [p Hp]%(inv_joined _ Hinv) [p' Hp']%(inv_joined _ Hinv).
  by simplify_eq.
Qed.

Lemma inv_member_joined st code ws :
  inv st → ws ∈ members code (rooms st) → EJoin code ws ∈ log st.
Proof.
  intros Hinv (p & Hp & _)%(inv_members _ Hinv).
  apply (inv_joined _ Hinv). eauto.
Qed.

Lemma inv_rooms_disjoint st code code' :
  inv st → code ≠ code' →
  members code (rooms st) ## members code' (rooms st).
Proof.
  intros Hinv Hne ws Hin Hin'. apply Hne.
  eapply inv_join_unique; eauto using inv_member_joined.
Qed.

(** C6. In every reachable state the members of two different rooms are
    disjoint, and every [send_text] call the log records was made on a
    connection that joined the room of the sender: when the sender joined
    [R1] and [R2] is another room, the recipient joined [R1], never joined
    [R2], and is not a member of [R2]. *)
Theorem broadcast_confined (sch : list label) (st : state) (a w : conn)
    (data : string) (r : send_result) (R1 R2 : string) :
  run sch init = Some st →
  ESend a w data r ∈ log st →
  EJoin R1 a ∈ log st →
  R1 ≠ R2 →
  members R1 (rooms st) ## members R2 (rooms st) ∧
  EJoin R1 w ∈ log st ∧
  EJoin R2 w ∉ log st ∧
  w ∉ members R2 (rooms st).
Proof.
  intros Hrun Hsend Hja Hne.
  assert (inv st) as Hinv by (by eapply inv_reachable).
  destruct (inv_sent _ Hinv _ _ _ _ Hsend) as (c & pa & pw & Ha & Hw).
  assert (c = R1) as ->.
  { eapply inv_join_unique; [done| |done]. apply (inv_joined _ Hinv). eauto. }
  assert (EJoin R1 w ∈ log st) as Hjw by (apply (inv_joined _ Hinv); eauto).
  assert (EJoin R2 w ∉ log st) as Hnjw.
  { intros Hj. apply Hne. by eapply inv_join_unique. }
  split_and!; [by apply inv_rooms_disjoint|done|done|].
  intros Hin. by apply Hnjw, inv_member_joined.
Qed.

Lemma broadcast_confined_witness :
  let st := default init
    (run [Accept "R1" 0; Accept "R2" 1; Accept "R1" 2; Accept "R2" 3;
          Receive 0 (RText "x"); SendDone 0 SOk] init) in
  EJoin "R1" 2 ∈ log st ∧ EJoin "R2" 2 ∉ log st ∧ 2 ∉ members "R2" (rooms st).
Proof.
  intros st.
  destruct (broadcast_confined
              [Accept "R1" 0; Accept "R2" 1; Accept "R1" 2; Accept "R2" 3;
               Receive 0 (RText "x"); SendDone 0 SOk]
              st 0 2 "x" SOk "R1" "R2") as (_ & H1 & H2 & H3).
  - by vm_compute.
  - apply (bool_decide_unpack _). by vm_compute.
  - apply (bool_decide_unpack _). by vm_compute.
  - done.
  - by split_and!.
Defined.

(** ** Counting joins and leaves *)

Lemma joins_app code evs1 evs2 :
  joins code (evs1 ++ evs2) = joins code evs1 + joins code evs2.
Proof.
  induction evs1 as [|e evs1 IH]; simpl; [done|].
  destruct e; try done. case_decide; simpl; by rewrite IH.
Qed.

Lemma leaves_app code evs1 evs2 :
  leaves code (evs1 ++ evs2) = leaves code evs1 + leaves code evs2.
Proof.
  induction evs1 as [|e evs1 IH]; simpl; [done|].
  destruct e; try done. case_decide; simpl; by rewrite IH.
Qed.

Lemma size_add_member (X : gset conn) ws :
  ws ∉ X → size (X ∪ {[ws]}) = S (size X).
Proof.
  intros Hnot. rewrite size_union by set_solver.
  rewrite size_singleton. lia.
Qed.

Lemma size_remove_member (X : gset conn) ws :
  ws ∈ X → S (size (X ∖ {[ws]})) = size X.
Proof.
  intros Hin.
  assert (size X = size ({[ws]} ∪ X ∖ {[ws]})) as ->
    by (by rewrite <- union_difference_singleton_L).
  rewrite (size_union {[ws]} (X ∖ {[ws]})) by set_solver.
  by rewrite size_singleton.
Qed.

Lemma step_counted st l st' :
  inv st → counted st → step st l st' → counted st'.
Proof.
  intros Hinv Hcnt Hstep c. specialize (Hcnt c).
  destruct Hstep as [code a Ht|a code data Ht|a code r Ht Hr
                    |a code data x rest r Ht Hr|a code data x rest Ht]; simpl.
  all: rewrite ?members_join, ?members_leave, joins_app, leaves_app; simpl.
  all: try lia.
  - case_decide; [subst|lia].
    rewrite size_add_member; [lia|].
    intros (p & Hp & _)%(inv_members _ Hinv). by simplify_eq.
  - case_decide; [subst|lia].
    assert (a ∈ members c (rooms st)) as Hin
      by (apply (inv_members _ Hinv); eauto).
    apply size_remove_member in Hin. lia.
  - case_decide; [subst|lia].
    assert (a ∈ members c (rooms st)) as Hin
      by (apply (inv_members _ Hinv); eauto).
    apply size_remove_member in Hin. lia.
Qed.

Lemma leaves_matched_snoc evs e :
  leaves_matched evs →
  (∀ code ws, e = ELeave code ws →
     EJoin code ws ∈ evs ∧ ELeave code ws ∉ evs) →
  leaves_matched (evs ++ [e]).
Proof.
  intros Hm He l1 l2 code ws Heq.
  destruct l2 as [|x l2 _] using rev_ind.
  - apply app_inj_tail in Heq as [-> Heq]. by apply (He code ws).
  - rewrite app_comm_cons, app_assoc in Heq.
    apply app_inj_tail in Heq as [-> _]. by eapply Hm.
Qed.

Lemma joins_fresh_snoc evs e :
  joins_fresh evs →
  (∀ code ws, e = EJoin code ws → ∀ c, EJoin c ws ∉ evs) →
  joins_fresh (evs ++ [e]).
Proof.
  intros Hm He l1 l2 code ws Heq.
  destruct l2 as [|x l2 _] using rev_ind.
  - apply app_inj_tail in Heq as [-> Heq]. by apply (He code ws).
  - rewrite app_comm_cons, app_assoc in Heq.
    apply app_inj_tail in Heq as [-> _]. by eapply Hm.
Qed.

Lemma step_leaves_matched st l st' :
  inv st → leaves_matched (log st) → step st l st' → leaves_matched (log st').
Proof.
  intros Hinv Hm Hstep.
  assert (∀ a code p, tasks st !! a = Some (Task code p) → finished p = false →
            EJoin code a ∈ log st ∧ ELeave code a ∉ log st) as Hrunning.
  { intros a code p Ha Hf. split.
    - apply (inv_joined _ Hinv). eauto.
    - intros (p' & Hp' & Hf')%(inv_left _ Hinv). simplify_eq. congruence. }
  destruct Hstep as [code a Ht|a code data Ht|a code r Ht Hr
                    |a code data x rest r Ht Hr|a code data x rest Ht]; simpl.
  - apply leaves_matched_snoc; [done|]. by intros.
  - apply leaves_matched_snoc; [done|]. by intros.
  - apply leaves_matched_snoc; [done|]. intros c ws ?. simplify_eq.
    by eapply Hrunning.
  - apply leaves_matched_snoc; [done|]. by intros.
  - replace (log st ++ [ESend a x data SCancelled; ELeave code a])
      with ((log st ++ [ESend a x data SCancelled]) ++ [ELeave code a])
      by (by rewrite <- app_assoc).
    apply leaves_matched_snoc.
    + apply leaves_matched_snoc; [done|]. by intros.
    + intros c ws ?. simplify_eq.
      destruct (Hrunning _ _ _ Ht eq_refl) as [Hj Hl].
      split; [apply elem_of_app; by left|].
      rewrite not_elem_of_app. split; [done|]. by intros ?%list_elem_of_singleton.
Qed.

Lemma step_joins_fresh st l st' :
  inv st → joins_fresh (log st) → step st l st' → joins_fresh (log st').
Proof.
  intros Hinv Hm Hstep.
  destruct Hstep as [code a Ht|a code data Ht|a code r Ht Hr
                    |a code data x rest r Ht Hr|a code data x rest Ht]; simpl.
  - apply joins_fresh_snoc; [done|]. intros c ws ? c'. simplify_eq.
    intros [p Hp]%(inv_joined _ Hinv). by simplify_eq.
  - apply joins_fresh_snoc; [done|]. by intros.
  - apply joins_fresh_snoc; [done|]. by intros.
  - apply joins_fresh_snoc; [done|]. by intros.
  - replace (log st ++ [ESend a x data SCancelled; ELeave code a])
      with ((log st ++ [ESend a x data SCancelled]) ++ [ELeave code a])
      by (by rewrite <- app_assoc).
    do 2 (apply joins_fresh_snoc; [|by intros]). done.
Qed.

Lemma counting_reachable sch st :
  run sch init = Some st →
  inv st ∧ counted st ∧ leaves_matched (log st) ∧ joins_fresh (log st).
Proof.
  apply (run_invariant
    (λ s, inv s ∧ counted s ∧ leaves_matched (log s) ∧ joins_fresh (log s))).
  - intros l s s' (Hinv & Hc & Hm & Hj) Hstep.
    eauto 10 using inv_step, step_counted, step_leaves_matched, step_joins_fresh.
  - split_and!.
    + apply inv_init.
    + intros code. unfold members. simpl. by rewrite lookup_empty.
    + intros l1 l2 code ws Heq. simpl in Heq. by destruct l1.
    + intros l1 l2 code ws Heq. simpl in Heq. by destruct l1.
Qed.

Lemma join_member_count code websocket (rooms : registry) :
  size (members code (join code websocket rooms)) =
  size (members code rooms) +
    (if decide (websocket ∈ members code rooms) then 0 else 1).
Proof.
  rewrite members_join, decide_True by done. case_decide as Hin.
  - assert (members code rooms ∪ {[websocket]} = members code rooms) as ->
      by set_solver.
    lia.
  - rewrite size_add_member by done. lia.
Qed.

Lemma leave_member_count code websocket (rooms : registry) :
  size (members code (leave code websocket rooms)) =
  size (members code rooms) -
    (if decide (websocket ∈ members code rooms) then 1 else 0).
Proof.
  rewrite members_leave, decide_True by done. case_decide as Hin.
  - apply size_remove_member in Hin. lia.
  - assert (members code rooms ∖ {[websocket]} = members code rooms) as ->
      by set_solver.
    lia.
Qed.

(** C8. In every reachable state and for every room, the number of
    members is the number of joins minus the number of leaves performed on
    the room, and the leaves never exceed the joins.  Every leave counted
    is a matching one: it follows a join of the same connection to the
    same room and no earlier leave of it; every join counted is the first
    join of its connection.  On the registry itself, a join adds one to
    the count exactly when the connection was not a member, and a leave
    takes one away exactly when it was. *)
Theorem member_count (sch : list label) (st : state) (code : string) :
  run sch init = Some st →
  (Z.of_nat (size (members code (rooms st))) =
     Z.of_nat (joins code (log st)) - Z.of_nat (leaves code (log st)))%Z ∧
  (leaves code (log st) ≤ joins code (log st))%nat ∧
  leaves_matched (log st) ∧
  joins_fresh (log st) ∧
  (∀ ws, size (members code (join code ws (rooms st))) =
         size (members code (rooms st)) +
           (if decide (ws ∈ members code (rooms st)) then 0 else 1)) ∧
  (∀ ws, size (members code (leave code ws (rooms st))) =
         size (members code (rooms st)) -
           (if decide (ws ∈ members code (rooms st)) then 1 else 0)).
Proof.
  intros (_ & Hc & Hm & Hj)%counting_reachable.
  specialize (Hc code). split_and!; [lia|lia|done|done|..].
  - intros ws. apply join_member_count.
  - intros ws. apply leave_member_count.
Qed.

Lemma member_count_witness :
  let st := default init
    (run [Accept "R1" 0; Accept "R1" 1; Accept "R2" 2; Receive 0 RDisconnect;
          Accept "R1" 3; Receive 3 (RText "x"); SendDone 3 SCancelled] init) in
  (Z.of_nat (size (members "R1" (rooms st))) = 3 - 2)%Z ∧
  (leaves "R1" (log st) ≤ joins "R1" (log st))%nat.
Proof.
  intros st.
  destruct (member_count
              [Accept "R1" 0; Accept "R1" 1; Accept "R2" 2; Receive 0 RDisconnect;
               Accept "R1" 3; Receive 3 (RText "x"); SendDone 3 SCancelled]
              st "R1") as (Hsz & Hle & _); [by vm_compute|].
  split; [exact Hsz|exact Hle].
Defined.

(** ** Order of delivery *)

Lemma frames_app a evs1 evs2 :
  frames a (evs1 ++ evs2) = frames a evs1 ++ frames a evs2.
Proof.
  induction evs1 as [|e evs1 IH]; simpl; [done|].
  destruct e; try done. case_decide; simpl; by rewrite IH.
Qed.

Lemma payloads_app a w evs1 evs2 :
  payloads a w (evs1 ++ evs2) = payloads a w evs1 ++ payloads a w evs2.
Proof. unfold payloads. by rewrite attempts_app, map_app. Qed.

Lemma sublist_latest (P : Prop) `{Decision P} (l fr : list string) data :
  l `sublist_of` (if decide P then fr else fr ++ [data]) →
  l `sublist_of` fr ++ [data].
Proof. case_decide; [apply sublist_inserts_r|done]. Qed.

Lemma returned_sublist qs : returned qs `sublist_of` map fst qs.
Proof.
  induction qs as [|[d r] qs IH]; simpl; [done|].
  destruct r; by constructor.
Qed.

Lemma ordered_next a w data (l fr : list string) it :
  l `sublist_of` fr →
  match next_send a data it with
  | Sending data' x rest =>
      ∃ fr', fr ++ [data] = fr' ++ [data'] ∧
             l `sublist_of` (if decide (w ∈ x :: rest) then fr' else fr' ++ [data'])
  | _ => l `sublist_of` fr ++ [data]
  end.
Proof.
  intros Hl. destruct (next_send a data it) as [|d x rest| |] eqn:E;
    try by apply sublist_inserts_r.
  apply next_send_Sending in E as (-> & _ & _).
  exists fr. split; [done|]. case_decide; [done|by apply sublist_inserts_r].
Qed.

Lemma ordered_rest a w data (r : send_result) (l fr : list string) x rest :
  NoDup (x :: rest) →
  l `sublist_of` (if decide (w ∈ x :: rest) then fr else fr ++ [data]) →
  match next_send a data rest with
  | Sending data' x' rest' =>
      ∃ fr', fr ++ [data] = fr' ++ [data'] ∧
             (l ++ map fst (if decide (a = a ∧ x = w) then [(data, r)] else []))
               `sublist_of`
               (if decide (w ∈ x' :: rest') then fr' else fr' ++ [data'])
  | _ => (l ++ map fst (if decide (a = a ∧ x = w) then [(data, r)] else []))
           `sublist_of` fr ++ [data]
  end.
Proof.
  intros [Hx Hnd]%NoDup_cons Hl.
  assert ((l ++ map fst (if decide (a = a ∧ x = w) then [(data, r)] else []))
            `sublist_of` fr ++ [data]) as Hall.
  { destruct (decide (a = a ∧ x = w)) as [[_ ->]|Hd]; simpl.
    - rewrite decide_True in Hl by (by left). by apply sublist_app.
    - rewrite app_nil_r. by eapply sublist_latest. }
  destruct (next_send a data rest) as [|d x' rest'| |] eqn:E; try done.
  apply next_send_Sending in E as (-> & _ & Hin).
  exists fr. split; [done|].
  destruct (decide (w ∈ x' :: rest')) as [Hw|Hw]; [|done].
  apply Hin in Hw.
  rewrite decide_False by (intros [_ ->]; done). simpl.
  rewrite app_nil_r. rewrite decide_True in Hl by (by right). done.
Qed.

Lemma step_ordered st l st' :
  inv st → ordered st → step st l st' → ordered st'.
Proof.
  intros Hinv Hord Hstep a w. specialize (Hord a w).
  destruct Hstep as [code b Ht|b code data Ht|b code r Ht Hr
                    |b code data x rest r Ht Hr|b code data x rest Ht]; simpl.
  all: rewrite frames_app, payloads_app, lookup_insert; simpl.
  all: unfold payloads in *; simpl.
  all: destruct (decide (b = a)) as [->|Hb]; simpl.
  all: try (rewrite !app_nil_r; rewrite ?decide_False by naive_solver;
            rewrite ?app_nil_r; exact Hord).
  - rewrite Ht in Hord; simpl in Hord. rewrite ?app_nil_r. exact Hord.
  - rewrite Ht in Hord; simpl in Hord. rewrite app_nil_r. by apply ordered_next.
  - rewrite Ht in Hord; simpl in Hord. rewrite ?app_nil_r.
    destruct r; try done; exact Hord.
  - rewrite Ht in Hord; simpl in Hord. destruct Hord as (fr & -> & Hl). rewrite app_nil_r.
    destruct (inv_wf _ Hinv _ _ _ Ht) as [_ Hnd].
    by apply ordered_rest.
  - rewrite Ht in Hord; simpl in Hord. destruct Hord as (fr & -> & Hl). rewrite app_nil_r.
    destruct (decide (a = a ∧ x = w)) as [[_ ->]|Hd]; simpl.
    + rewrite decide_True in Hl by (by left). by apply sublist_app.
    + rewrite app_nil_r. by eapply sublist_latest.
Qed.

Lemma ordered_reachable sch st : run sch init = Some st → inv st ∧ ordered st.
Proof.
  apply (run_invariant (λ s, inv s ∧ ordered s)).
  - intros l s s' [Hinv Hord] Hstep.
    eauto using inv_step, step_ordered.
  - split; [apply inv_init|]. intros a w. simpl. by rewrite lookup_empty.
Qed.

(** C7. In every reachable state, for every sender [a] and recipient [w],
    the payloads of the [send_text] calls [a] made on [w], in the order of
    the calls, are a subsequence of the frames [a] received, in the order
    it received them; so are the payloads of the calls that returned
    normally.  Frames [m1], [m2], [m3] received in that order are therefore
    never handed to a recipient in another order. *)
Theorem per_sender_order (sch : list label) (st : state) (a w : conn) :
  run sch init = Some st →
  payloads a w (log st) `sublist_of` frames a (log st) ∧
  delivered a w (log st) `sublist_of` frames a (log st).
Proof.
  intros [Hinv Hord]%ordered_reachable. specialize (Hord a w).
  assert (payloads a w (log st) `sublist_of` frames a (log st)) as Hp.
  { destruct (tasks st !! a) as [[c [|data x rest| |]]|]; try done.
    destruct Hord as (fr & -> & Hl). by eapply sublist_latest. }
  split; [done|].
  etrans; [|exact Hp]. apply returned_sublist.
Qed.

Lemma per_sender_order_witness :
  let st := default init
    (run [Accept "R1" 0; Accept "R1" 1;
          Receive 0 (RText "m1"); SendDone 0 SOk;
          Receive 0 (RText "m2"); SendDone 0 SException;
          Receive 0 (RText "m3"); SendDone 0 SOk] init) in
  frames 0 (log st) = ["m1"; "m2"; "m3"] ∧
  delivered 0 1 (log st) = ["m1"; "m3"] ∧
  payloads 0 1 (log st) `sublist_of` frames 0 (log st) ∧
  delivered 0 1 (log st) `sublist_of` frames 0 (log st).
Proof.
  intros st.
  destruct (per_sender_order
              [Accept "R1" 0; Accept "R1" 1;
               Receive 0 (RText "m1"); SendDone 0 SOk;
               Receive 0 (RText "m2"); SendDone 0 SException;
               Receive 0 (RText "m3"); SendDone 0 SOk] st 0 1) as [Hp Hd];
    [by vm_compute|].
  split_and!; [by vm_compute|by vm_compute|exact Hp|exact Hd].
Defined.

(** * Further properties of the code *)

(** ** The registry operations together *)

Lemma members_join_eq code websocket (rooms : registry) :
  members code (join code websocket rooms) = members code rooms ∪ {[websocket]}.
Proof. rewrite members_join. by case_decide. Qed.

Lemma members_leave_eq code websocket (rooms : registry) :
  members code (leave code websocket rooms) = members code rooms ∖ {[websocket]}.
Proof. rewrite members_leave. by case_decide. Qed.

(** Lines 156-158 and 172-174 undo each other.  On a registry without
    empty rooms, a connection that joins a room it was not in and leaves
    it again restores the registry, a room created by the join being
    deleted by the leave; a member that leaves and joins again restores
    the registry too. *)
Theorem join_leave_round_trip (code : string) (websocket : conn) (rooms : registry) :
  (no_empty_room rooms → websocket ∉ members code rooms →
     leave code websocket (join code websocket rooms) = rooms) ∧
  (websocket ∈ members code rooms →
     join code websocket (leave code websocket rooms) = rooms).
Proof.
  split.
  - intros Hne Hnot. apply map_eq. intros c.
    destruct (decide (code = c)) as [<-|Hc].
    + rewrite leave_lookup, members_join_eq.
      assert ((members code rooms ∪ {[websocket]}) ∖ {[websocket]}
              = members code rooms) as -> by set_solver.
      unfold members in *. destruct (rooms !! code) as [s|] eqn:Hs; simpl in *.
      * rewrite decide_False; [done|]. by eapply Hne.
      * by rewrite decide_True.
    + by rewrite leave_lookup_ne, join_lookup_ne.
  - intros Hin. apply map_eq. intros c.
    destruct (decide (code = c)) as [<-|Hc].
    + rewrite join_lookup, members_leave_eq.
      assert (members code rooms ∖ {[websocket]} ∪ {[websocket]}
              = members code rooms) as ->.
      { apply set_eq. intros x. rewrite elem_of_union, elem_of_difference,
          elem_of_singleton. destruct (decide (x = websocket)); naive_solver. }
      unfold members in *. destruct (rooms !! code) as [s|] eqn:Hs; simpl in *;
        [done|set_solver].
    + by rewrite join_lookup_ne, leave_lookup_ne.
Qed.

Lemma join_leave_round_trip_witness :
  leave "R2" 5 (join "R2" 5 {[ "R1" := {[7]} ]}) = ({[ "R1" := {[7]} ]} : registry) ∧
  join "R1" 7 (leave "R1" 7 {[ "R1" := {[7]} ]}) = ({[ "R1" := {[7]} ]} : registry).
Proof.
  split.
  - apply (proj1 (join_leave_round_trip "R2" 5 {[ "R1" := {[7]} ]})).
    + apply (bool_decide_unpack _). by vm_compute.
    + apply (bool_decide_unpack _). by vm_compute.
  - apply (proj2 (join_leave_round_trip "R1" 7 {[ "R1" := {[7]} ]})).
    apply (bool_decide_unpack _). by vm_compute.
Defined.

Lemma members_join_ne code c websocket (rooms : registry) :
  code ≠ c → members c (join code websocket rooms) = members c rooms.
Proof. intros. rewrite members_join. by case_decide. Qed.

Lemma members_leave_ne code c websocket (rooms : registry) :
  code ≠ c → members c (leave code websocket rooms) = members c rooms.
Proof. intros. rewrite members_leave. by case_decide. Qed.

Ltac registry_lookup :=
  repeat first
    [ rewrite join_lookup | rewrite leave_lookup
    | rewrite join_lookup_ne by done | rewrite leave_lookup_ne by done
    | rewrite members_join_eq | rewrite members_leave_eq
    | rewrite members_join_ne by done | rewrite members_leave_ne by done ].

(** The registry steps of two handlers commute: whatever the registry,
    the joins (lines 156-158) and leaves (lines 172-174) of two different
    connections, on the same room or on different ones, give the same
    registry in either order. *)
Theorem registry_steps_commute (c1 c2 : string) (a b : conn) (rooms : registry) :
  a ≠ b →
  join c1 a (join c2 b rooms) = join c2 b (join c1 a rooms) ∧
  leave c1 a (leave c2 b rooms) = leave c2 b (leave c1 a rooms) ∧
  join c1 a (leave c2 b rooms) = leave c2 b (join c1 a rooms).
Proof.
  intros Hab. split_and!; apply map_eq; intros c.
  all: destruct (decide (c1 = c)) as [->|?], (decide (c2 = c)) as [->|?];
    registry_lookup; try done.
  - f_equal. set_solver.
  - assert (members c rooms ∖ {[b]} ∖ {[a]} = members c rooms ∖ {[a]} ∖ {[b]})
      as -> by set_solver.
    done.
  - rewrite decide_False by set_solver. f_equal. set_solver.
Qed.

Lemma registry_steps_commute_witness :
  join "R1" 1 (leave "R1" 2 {[ "R1" := {[2]} ]}) =
  leave "R1" 2 (join "R1" 1 {[ "R1" := {[2]} ]}).
Proof.
  apply (registry_steps_commute "R1" "R1" 1 2 {[ "R1" := {[2]} ]}). done.
Defined.

(** ** The registry and the running handlers *)

(** Lines 153-174.  In every reachable state the members of a room are
    exactly the connections whose handler was opened on that room and has
    not ended: a connection is a member from its accept on, whatever the
    other handlers do, and until its own [finally] block. *)
Theorem members_are_running (sch : list label) (st : state)
    (code : string) (ws : conn) :
  run sch init = Some st →
  ws ∈ members code (rooms st) ↔
  ∃ p, tasks st !! ws = Some (Task code p) ∧ finished p = false.
Proof. intros Hinv%inv_reachable. apply (inv_members _ Hinv). Qed.

Lemma members_are_running_witness :
  let st := default init
    (run [Accept "R1" 0; Accept "R1" 1; Receive 0 (RText "x");
          Receive 1 RDisconnect] init) in
  0 ∈ members "R1" (rooms st) ∧ 1 ∉ members "R1" (rooms st).
Proof.
  intros st.
  pose proof (members_are_running
    [Accept "R1" 0; Accept "R1" 1; Receive 0 (RText "x"); Receive 1 RDisconnect]
    st "R1") as H.
  split.
  - apply H; [by vm_compute|]. eexists. split; by vm_compute.
  - intros Hin. apply H in Hin as (p & Hp & Hf); [|by vm_compute].
    vm_compute in Hp. by simplify_eq.
Defined.

(** Lines 151-174.  In every reachable state a room code is bound in
    [rooms] exactly when some handler opened on it is still running, so
    that [rooms] is the empty dict again as soon as every handler has
    ended. *)
Theorem registry_tracks_running (sch : list label) (st : state) :
  run sch init = Some st →
  (∀ code, room_exists code (rooms st) = true ↔
     ∃ ws p, tasks st !! ws = Some (Task code p) ∧ finished p = false) ∧
  ((∀ ws t, tasks st !! ws = Some t → finished (t_pc t) = true) →
     rooms st = ∅).
Proof.
  intros Hrun.
  assert (inv st) as Hinv by (by eapply inv_reachable).
  assert (no_empty_room (rooms st)) as Hne.
  { revert Hrun. apply (run_invariant (λ s, no_empty_room (rooms s))).
    - intros. by eapply step_no_empty_room.
    - apply map_Forall_empty. }
  assert (∀ code, is_Some (rooms st !! code) ↔
            ∃ ws p, tasks st !! ws = Some (Task code p) ∧ finished p = false)
    as Hbound.
  { intros code. split.
    - intros [s Hs].
      destruct (set_choose_L s) as [ws Hws]; [by eapply Hne|].
      assert (ws ∈ members code (rooms st)) as Hin
        by (unfold members; by rewrite Hs).
      apply (inv_members _ Hinv) in Hin as (p & Hp & Hf). eauto.
    - intros (ws & p & Hp & Hf). by eapply inv_running_room_bound. }
  split.
  - intros code. unfold room_exists. rewrite bool_decide_eq_true. apply Hbound.
  - intros Hall. apply map_empty. intros code.
    apply eq_None_not_Some. intros (ws & p & Hp & Hf)%Hbound.
    specialize (Hall _ _ Hp). simpl in Hall. congruence.
Qed.

Lemma registry_tracks_running_witness :
  rooms (default init
    (run [Accept "R1" 0; Accept "R2" 1; Receive 0 (RText "x");
          Receive 1 RError; Receive 0 RDisconnect] init)) = ∅.
Proof.
  apply (registry_tracks_running
    [Accept "R1" 0; Accept "R2" 1; Receive 0 (RText "x");
     Receive 1 RError; Receive 0 RDisconnect]); [by vm_compute|].
  assert (map_Forall (λ (_ : conn) (t : task), finished (t_pc t) = true)
            (tasks (default init
               (run [Accept "R1" 0; Accept "R2" 1; Receive 0 (RText "x");
                     Receive 1 RError; Receive 0 RDisconnect] init)))) as Hall.
  { apply (bool_decide_unpack _). by vm_compute. }
  exact Hall.
Defined.

(** ** Handlers that have ended, and the cost of a broadcast *)

Lemma step_finished_silent st l st' a c p w :
  step st l st' →
  tasks st !! a = Some (Task c p) → finished p = true →
  attempts a w (log st') = attempts a w (log st) ∧
  frames a (log st') = frames a (log st).
Proof.
  intros Hstep Ha Hf.
  destruct Hstep as [code b Ht|b code data Ht|b code r Ht Hr
                    |b code data x rest r Ht Hr|b code data x rest Ht]; simpl.
  all: assert (b ≠ a) as Hb by (intros ->; simplify_eq; done).
  all: rewrite attempts_app, frames_app; simpl.
  all: rewrite ?decide_False by naive_solver.
  all: by rewrite !app_nil_r.
Qed.

Lemma run_finished_silent sch : ∀ st st' a c p w,
  run sch st = Some st' →
  tasks st !! a = Some (Task c p) → finished p = true →
  attempts a w (log st') = attempts a w (log st) ∧
  frames a (log st') = frames a (log st).
Proof.
  induction sch as [|l sch IH]; intros st st' a c p w Hrun Ha Hf; simpl in Hrun.
  - by simplify_eq.
  - destruct (exec l st) as [st1|] eqn:Hex; [|done].
    apply exec_step in Hex.
    destruct (step_finished_silent _ _ _ _ _ _ w Hex Ha Hf) as [E1 E2].
    destruct (IH st1 st' a c p w Hrun) as [E3 E4];
      [by eapply step_finished_kept|done|].
    by rewrite E3, E4.
Qed.

(** Lines 159-174.  Once a handler has ended, returned or raising, no
    later step of any schedule receives a frame or calls [send_text] on
    its behalf, and its outcome is never revised. *)
Theorem ended_handler_silent (sch : list label) (st st' : state) (a : conn)
    (c : string) (p : pc) :
  tasks st !! a = Some (Task c p) →
  finished p = true →
  run sch st = Some st' →
  tasks st' !! a = Some (Task c p) ∧
  frames a (log st') = frames a (log st) ∧
  ∀ w, attempts a w (log st') = attempts a w (log st).
Proof.
  intros Ha Hf Hrun. split_and!.
  - by eapply run_finished_kept.
  - by eapply (run_finished_silent sch st st' a c p 0).
  - intros w. by eapply (run_finished_silent sch st st' a c p w).
Qed.

Lemma ended_handler_silent_witness :
  let st := default init
    (run [Accept "R1" 0; Accept "R1" 1; Receive 0 RDisconnect] init) in
  let st' := default init
    (run [Receive 1 (RText "x"); Accept "R1" 2; Receive 1 (RText "y");
          SendDone 1 SOk] st) in
  tasks st' !! 0 = Some (Task "R1" Returned) ∧
  frames 0 (log st') = frames 0 (log st) ∧
  ∀ w, attempts 0 w (log st') = attempts 0 w (log st).
Proof.
  intros st st'.
  apply (ended_handler_silent
           [Receive 1 (RText "x"); Accept "R1" 2; Receive 1 (RText "y");
            SendDone 1 SOk] st st' 0 "R1" Returned); by vm_compute.
Defined.

(** Lines 163-174.  When the task of a handler is cancelled while it
    awaits a send, the [finally] block runs at once: the handler ends
    raising, its connection is out of its room, and the connections still
    in the iterator of the relay loop never get a call for that frame,
    whatever happens afterwards. *)
Theorem cancelled_broadcast_stops (st : state) (a x : conn) (code data : string)
    (rest : list conn) :
  tasks st !! a = Some (Task code (Sending data x rest)) →
  ∃ st1,
    exec (SendDone a SCancelled) st = Some st1 ∧
    tasks st1 !! a = Some (Task code Raised) ∧
    log st1 = log st ++ [ESend a x data SCancelled; ELeave code a] ∧
    a ∉ members code (rooms st1) ∧
    ∀ sch st2, run sch st1 = Some st2 →
      ∀ w, attempts a w (log st2) =
           attempts a w (log st) ++
             (if decide (x = w) then [(data, SCancelled)] else []).
Proof.
  intros Ha. unfold exec. rewrite Ha. eexists. split; [done|].
  simpl. rewrite lookup_insert_eq, members_leave_eq, <- app_assoc. simpl.
  split_and!; [done|done|set_solver|].
  intros sch st2 Hrun w.
  destruct (run_finished_silent sch _ st2 a code Raised w Hrun) as [-> _];
    [by simpl; rewrite lookup_insert_eq|done|].
  simpl. rewrite <- app_assoc, attempts_app. simpl.
  destruct (decide (x = w)) as [->|Hx].
  - by rewrite decide_True.
  - by rewrite decide_False by naive_solver.
Qed.

Lemma cancelled_broadcast_stops_witness :
  let st := default init
    (run [Accept "R1" 0; Accept "R1" 1; Accept "R1" 2;
          Receive 0 (RText "x")] init) in
  ∃ st1,
    exec (SendDone 0 SCancelled) st = Some st1 ∧
    ∀ st2, run [Receive 1 (RText "y"); SendDone 1 SOk] st1 = Some st2 →
      attempts 0 1 (log st2) = [].
Proof.
  intros st.
  destruct (cancelled_broadcast_stops st 0 2 "R1" "x" [1; 0])
    as (st1 & Hex & _ & _ & _ & Hlater); [by vm_compute|].
  exists st1. split; [exact Hex|].
  intros st2 Hrun. rewrite (Hlater _ _ Hrun 1). reflexivity.
Defined.

Lemma recipients_length a code (rooms : registry) :
  length (recipients a code rooms) =
  size (members code rooms) -
    (if decide (a ∈ members code rooms) then 1 else 0).
Proof.
  assert (recipients a code rooms ≡ₚ elements (members code rooms ∖ {[a]}))
    as Hperm.
  { apply NoDup_Permutation.
    - apply NoDup_filter, snapshot_NoDup.
    - apply NoDup_elements.
    - intros y. unfold recipients.
      rewrite list_elem_of_filter, elem_of_snapshot, elem_of_elements.
      set_solver. }
  rewrite Hperm.
  change (size (members code rooms ∖ {[a]}) =
          size (members code rooms) -
            (if decide (a ∈ members code rooms) then 1 else 0)).
  case_decide as Hin.
  - apply size_remove_member in Hin. lia.
  - assert (members code rooms ∖ {[a]} = members code rooms) as ->
      by set_solver.
    lia.
Qed.

(** Lines 160-168.  In a reachable state, a frame received by a handler
    of a room with [n] members costs exactly [n - 1] calls of [send_text],
    none at all when the sender is alone in its room; with the frame
    itself that is [n] entries of the log. *)
Theorem broadcast_cost (sch : list label) (st : state) (a : conn)
    (code data : string) (rs : list send_result) :
  run sch init = Some st →
  tasks st !! a = Some (Task code Receiving) →
  Forall (λ r, r ≠ SCancelled) rs →
  length rs = size (members code (rooms st)) - 1 →
  length (recipients a code (rooms st)) = size (members code (rooms st)) - 1 ∧
  ∃ st',
    run (Receive a (RText data) :: map (SendDone a) rs) st = Some st' ∧
    tasks st' !! a = Some (Task code Receiving) ∧
    length (log st') = length (log st) + size (members code (rooms st)).
Proof.
  intros Hrun Ha Hrs Hlen.
  assert (inv st) as Hinv by (by eapply inv_reachable).
  assert (a ∈ members code (rooms st)) as Hin
    by (apply (inv_members _ Hinv); eauto).
  assert (length (recipients a code (rooms st))
          = size (members code (rooms st)) - 1) as Hrec.
  { rewrite recipients_length. by rewrite decide_True. }
  split; [done|].
  assert (0 < size (members code (rooms st))) as Hpos.
  { apply size_remove_member in Hin. lia. }
  cbn [run exec]. rewrite Ha.
  rewrite (relay_run a code data (snapshot code (rooms st)));
    [|by simpl; rewrite lookup_insert_eq|done|by rewrite Hlen].
  eexists. split; [done|]. simpl.
  rewrite lookup_insert_eq. split; [done|].
  rewrite !length_app. unfold relay_events. rewrite length_zip_with. simpl.
  fold (recipients a code (rooms st)). lia.
Qed.

Lemma broadcast_cost_witness :
  let st := default init
    (run [Accept "R1" 0; Accept "R1" 1; Accept "R1" 2; Accept "R2" 3] init) in
  length (recipients 0 "R1" (rooms st)) = 2 ∧
  length (recipients 3 "R2" (rooms st)) = 0.
Proof.
  intros st. split.
  - apply (broadcast_cost
             [Accept "R1" 0; Accept "R1" 1; Accept "R1" 2; Accept "R2" 3]
             st 0 "R1" "x" [SOk; SException]);
      [by vm_compute|by vm_compute|repeat constructor; done|by vm_compute].
  - apply (broadcast_cost
             [Accept "R1" 0; Accept "R1" 1; Accept "R1" 2; Accept "R2" 3]
             st 3 "R2" "x" []);
      [by vm_compute|by vm_compute|constructor|by vm_compute].
Defined.

(** ** Which meeting codes can come out *)

Section meeting_code_range.
Import MeetingCode.

Lemma draw_for_alphabet :
  forallb (λ c, bool_decide
                  (choice alphabet (random_mantissa (λ _, draw_for c) 0) = Some c))
    alphabet = true.
Proof. by vm_compute. Qed.

Lemma choice_draw_for c i (rnd : nat → N) :
  c ∈ alphabet → rnd i = draw_for c →
  choice alphabet (random_mantissa rnd i) = Some c.
Proof.
  intros Hc Hi. pose proof draw_for_alphabet as Hall.
  rewrite forallb_forall in Hall.
  apply list_elem_of_In, Hall, bool_decide_eq_true in Hc.
  unfold random_mantissa in *. by rewrite Hi.
Qed.

(** Lines 126-127.  Every string of 8 characters over the uppercase
    letters and the digits is returned by [generate_meeting_code] for
    suitable random draws, the rounding of the binary64 product taken
    into account: no code of that shape is excluded. *)
Theorem every_code_possible (l : list ascii) :
  length l = 8 →
  Forall (λ c, c ∈ alphabet) l →
  ∃ rnd, generate_meeting_code rnd = Some (String.string_of_list_ascii l).
Proof.
  intros Hlen Hall.
  exists (λ i, draw_for (nth i l "000"%char)).
  unfold generate_meeting_code.
  do 9 (destruct l as [|? l]; try done).
  repeat match goal with
         | H : Forall _ (_ :: _) |- _ => apply Forall_cons in H as [? H]
         end.
  assert (choices alphabet 8
            (λ i, draw_for (nth i [a; a0; a1; a2; a3; a4; a5; a6] "000"%char))
          = Some [a; a0; a1; a2; a3; a4; a5; a6]) as ->; [|done].
  unfold choices. apply mapM_Some. simpl.
  repeat (constructor; [by apply choice_draw_for|]). constructor.
Qed.

Lemma every_code_possible_witness :
  ∃ rnd, generate_meeting_code rnd = Some "MEET2026".
Proof.
  apply (every_code_possible (String.list_ascii_of_string "MEET2026")).
  - reflexivity.
  - apply (bool_decide_unpack _). by vm_compute.
Defined.

End meeting_code_range.

(** ** Tokens and the current user *)

Section http.
Import Http.




(** Lines 67-89.  When [get_current_user] returns a user, the token
    decoded to a payload whose claim [sub] is not [None] and whose claim
    [email] is truthy, and the user is the first document, not an empty
    one, that the collection [authuser] holds for that [email]; every
    [HTTPException] it raises is the one 401 of lines 68-72. *)
Theorem current_user_found (E : collaborators) (token : string) :
  (∀ u, get_current_user E token = Ok u →
     ∃ payload rest,
       jwt_decode E token (SECRET_KEY E) ["HS256"] = Some payload ∧
       py_get payload "sub" ≠ PNone ∧
       truth (py_get payload "email") = true ∧
       get_documents E "authuser" {[ "email" := py_get payload "email" ]}
         = Some (u :: rest) ∧
       u ≠ ∅) ∧
  (∀ e, get_current_user E token = Http e →
     e = credentials_exception ∧ status_code e = 401).
Proof.
  unfold get_current_user, ALGORITHM. split.
  - intros u Hu.
    destruct (jwt_decode E token (SECRET_KEY E) ["HS256"]) as [payload|];
      [|done].
    exists payload.
    destruct (py_get payload "sub") eqn:Hsub; try done.
    all: destruct (truth (py_get payload "email")) eqn:Hem; [|done].
    all: destruct (get_documents E "authuser" _) as [[|u' rest]|] eqn:Hdocs;
      try done.
    all: case_bool_decide; [done|]; simplify_eq.
    all: exists rest; by split_and!.
  - intros e He.
    repeat case_match; by simplify_eq.
Qed.

Lemma current_user_found_witness :
  let user : pydict := {[ "email" := PStr "a@b.c"; "name" := PStr "Ann" ]} in
  let E := {| jwt_encode := λ _ _ _, Some "t";
              jwt_decode := λ t _ _,
                if String.eqb t "good"
                then Some {[ "sub" := PStr "x"; "email" := PStr "a@b.c" ]}
                else None;
              get_documents := λ _ _, Some [user];
              SECRET_KEY := "k" |} in
  get_documents E "authuser" {[ "email" := PStr "a@b.c" ]} = Some [user] ∧
  status_code credentials_exception = 401.
Proof.
  intros user E.
  destruct (current_user_found E "good") as [Hok _].
  destruct (Hok user) as (payload & rest & Hdec & _ & _ & Hdocs & _);
    [by vm_compute|].
  destruct (current_user_found E "bad") as [_ Herr].
  destruct (Herr credentials_exception) as [_ H401]; [by vm_compute|].
  vm_compute in Hdec. simplify_eq. split; [|exact H401].
  vm_compute in Hdocs. simplify_eq. reflexivity.
Defined.

(** Lines 73-89.  The user is found by the claim [email] alone: two
    tokens that decode to payloads with the same [email], each with some
    claim [sub], give the same result, whatever their [sub] and their
    other claims are. *)
Theorem current_user_by_email (E : collaborators) (t1 t2 : string)
    (p1 p2 : pydict) :
  jwt_decode E t1 (SECRET_KEY E) ["HS256"] = Some p1 →
  jwt_decode E t2 (SECRET_KEY E) ["HS256"] = Some p2 →
  py_get p1 "sub" ≠ PNone →
  py_get p2 "sub" ≠ PNone →
  py_get p1 "email" = py_get p2 "email" →
  get_current_user E t1 = get_current_user E t2.
Proof.
  intros H1 H2 Hs1 Hs2 Hem. unfold get_current_user, ALGORITHM.
  rewrite H1, H2, Hem.
  destruct (py_get p1 "sub"), (py_get p2 "sub"); done.
Qed.

Lemma current_user_by_email_witness :
  let E := {| jwt_encode := λ _ _ _, Some "t";
              jwt_decode := λ t _ _,
                Some {[ "sub" := PStr t; "email" := PStr "a@b.c" ]};
              get_documents := λ _ _, Some [{[ "email" := PStr "a@b.c" ]}];
              SECRET_KEY := "k" |} in
  get_current_user E "alice" = get_current_user E "mallory".
Proof.
  intros E.
  apply (current_user_by_email E "alice" "mallory"
           {[ "sub" := PStr "alice"; "email" := PStr "a@b.c" ]}
           {[ "sub" := PStr "mallory"; "email" := PStr "a@b.c" ]});
    by vm_compute.
Defined.

End http.

(** ** Joining a meeting, and the diagnostic endpoint *)

Section http_endpoints.
Import Http.

(** Lines 136-146.  For a meeting that is found and has an [_id],
    [join_meeting] issues one update of that document, with a list of
    participants that has no duplicates and holds exactly the previous
    participants and the caller, so at most one entry more than before;
    joining again with the list just written writes the same participants
    again.  When no meeting is found nothing is written. *)
Theorem join_meeting_participants `{Countable A} (m : meeting A)
    (rest : list (meeting A)) (email : A) (utcnow : Z) (id : string) :
  m_id m = Some id →
  join_meeting [] email utcnow = JoinNotFound ∧
  ∃ ps,
    join_meeting (m :: rest) email utcnow = Joined (UpdateOne id ps utcnow) ∧
    NoDup ps ∧
    (∀ x, x ∈ ps ↔ x = email ∨ x ∈ default [] (m_participants m)) ∧
    (length ps ≤ S (length (default [] (m_participants m))))%nat ∧
    ∀ utcnow', ∃ ps',
      join_meeting (Meeting (Some id) (Some ps) :: rest) email utcnow'
        = Joined (UpdateOne id ps' utcnow') ∧
      ps' ≡ₚ ps.
Proof.
  intros Hid. split; [done|].
  set (old := default [] (m_participants m)).
  exists (elements (list_to_set old ∪ {[email]} : gset A)).
  assert (∀ x, x ∈ elements (list_to_set old ∪ {[email]} : gset A) ↔
               x = email ∨ x ∈ old) as Hmem.
  { intros x. rewrite elem_of_elements, elem_of_union, elem_of_singleton,
      elem_of_list_to_set. naive_solver. }
  split_and!.
  - unfold join_meeting. by rewrite Hid.
  - apply NoDup_elements.
  - exact Hmem.
  - change (S (length old)) with (length (email :: old)).
    apply submseteq_length, NoDup_submseteq; [apply NoDup_elements|].
    intros x Hx. apply Hmem in Hx. set_solver.
  - intros utcnow'. eexists. split; [done|]. simpl.
    apply NoDup_Permutation; [apply NoDup_elements..|].
    intros x. rewrite elem_of_elements, elem_of_union, elem_of_singleton,
      elem_of_list_to_set, Hmem. naive_solver.
Qed.

Lemma join_meeting_participants_witness :
  ∃ ps,
    join_meeting [Meeting (Some "65f0") (Some ["a@x.org"; "b@x.org"; "a@x.org"])]
      "b@x.org" 0 = Joined (UpdateOne "65f0" ps 0) ∧
    NoDup ps ∧ (length ps ≤ 4)%nat.
Proof.
  destruct (join_meeting_participants
              (Meeting (Some "65f0") (Some ["a@x.org"; "b@x.org"; "a@x.org"]))
              [] "b@x.org" 0 "65f0") as (_ & ps & Hj & Hnd & _ & Hlen & _);
    [reflexivity|].
  exists ps. split_and!; [exact Hj|exact Hnd|exact Hlen].
Defined.

(** Lines 177-206.  Whatever the database object is, the fields
    [database_url] and [database_name] of the response report the two
    environment variables and nothing else, an empty variable counting as
    not set: the values stored on lines 190-191, the name of the database
    among them, never reach the caller.  [backend] is always the running
    mark. *)
Theorem test_database_reports_environment (db : option database)
    (DATABASE_URL DATABASE_NAME : option string) :
  let r := test_database db DATABASE_URL DATABASE_NAME in
  backend_running r = true ∧
  database_url r = env_setting DATABASE_URL ∧
  database_name r = env_setting DATABASE_NAME ∧
  (∀ name, database_name r ≠ Named name) ∧
  database_url r ≠ Configured ∧
  (DATABASE_URL = Some String.EmptyString → database_url r = NotSet).
Proof.
  intros r.
  assert (database_url r = env_setting DATABASE_URL ∧
          database_name r = env_setting DATABASE_NAME ∧
          backend_running r = true) as (Hurl & Hname & Hback).
  { unfold r. by destruct db as [[[name|e] [names|e']]|]. }
  rewrite Hurl, Hname. split_and!; try done.
  - intros name. destruct DATABASE_NAME as [s|]; simpl;
      [destruct (String.eqb s _)|]; done.
  - destruct DATABASE_URL as [s|]; simpl; [destruct (String.eqb s _)|]; done.
  - by intros ->.
Qed.

(** Lines 187-202.  The response lists at most 10 collections, the first
    ones of the listing in its order, and only when the listing returned;
    an error text carries at most 50 code points of the message; the
    connection is reported as established exactly when there is a
    database object whose name could be read. *)
Theorem test_database_bounds (db : option database)
    (DATABASE_URL DATABASE_NAME : option string) :
  let r := test_database db DATABASE_URL DATABASE_NAME in
  (length (collections r) ≤ 10)%nat ∧
  (∀ d names, db = Some d → list_collection_names d = Returns names →
     collections r `prefix_of` names) ∧
  (∀ d e, db = Some d → list_collection_names d = Raises e →
     collections r = []) ∧
  (∀ e, database_field r = ConnectedButError e ∨
        database_field r = ErrorStatus e → (length e ≤ 50)%nat) ∧
  (connected r = true ↔ ∃ d name, db = Some d ∧ db_name d = Returns name).
Proof.
  intros r. unfold r.
  destruct db as [[[name|e] [names|e']]|]; simpl.
  all: split_and!.
  all: try (rewrite length_take; lia).
  all: try (simpl; lia).
  all: try (intros d ns ? ?; simplify_eq/=; by apply prefix_take).
  all: try (intros d ns ? ?; by simplify_eq/=).
  all: try (intros msg [?|?]; simplify_eq; rewrite length_take; lia).
  all: try (split; [eauto|done]).
  all: try (split; [done|]; intros (d & n & ? & ?); by simplify_eq/=).
  all: intros; apply prefix_nil.
Qed.

End http_endpoints.
